(** * srclib coverage: a shallow embedding of [cli/coverage_cmd.go] and
      [src/repo_opt.go], and the properties of their specification.

    The development follows the Go sources function by function.  Go values
    are represented as follows:
    - [[]byte] is [list byte]; a slice expression [data[i:j]] is written with
      [firstn] and [skipn];
    - [string] is Rocq's [string];
    - [int] is a 64-bit two's complement integer, carried as a [Z] that every
      arithmetic operation wraps ([Int.wrap]);
    - [float64] is IEEE 754 binary64, carried as the standard library's
      [spec_float] with precision 53 and exponent bound 1024;
    - Go maps are stdpp's [gmap], a map used as a set is a [gset];
    - a function returning [(T, error)] returns a sum, and the package-level
      variables a function reads and writes are passed as an explicit state. *)

From Stdlib Require Import ZArith List String Ascii Strings.Byte SpecFloat Lia.
From stdpp Require Import gmap strings list.

Local Open Scope Z_scope.

(** ** Go's [int] *)

Module Int.

Definition wrap (z : Z) : Z := (z + 2 ^ 63) mod 2 ^ 64 - 2 ^ 63.

Definition add (a b : Z) : Z := wrap (a + b).

(** [n++] *)
Definition incr (n : Z) : Z := add n 1.

Definition InRange (z : Z) : Prop := - 2 ^ 63 <= z < 2 ^ 63.

End Int.

(** ** Go's [float64] and the part of package [math] the command uses *)

Module F64.

Definition float64 : Type := spec_float.

(** The conversion [float64(n)] of an [int]: round to nearest, ties to
    even. *)
Definition of_int (n : Z) : float64 := binary_normalize 53 1024 n 0 false.

(** [x / y] *)
Definition div (x y : float64) : float64 := SFdiv 53 1024 x y.

(** [x > y] *)
Definition gt (x y : float64) : bool := SFltb y x.

(** [math.IsNaN] *)
Definition IsNaN (q : float64) : bool :=
  match q with
  | S754_nan => true
  | _ => false
  end.

Definition zero : float64 := S754_zero false.
Definition one : float64 := S754_finite false 4503599627370496 (-52).
Definition pos_inf : float64 := S754_infinity false.

(** The literal [-1]. *)
Definition minus_one : float64 := S754_finite true 4503599627370496 (-52).

(** The literal [0.7]: the binary64 number nearest to 7/10, which is
    [0x3FE6666666666666]. *)
Definition lit_0_7 : float64 := S754_finite false 6305039478318694 (-53).

End F64.

(** ** Package [text/scanner], as far as [stripComments] drives it

    [stripComments] runs a [scanner.Scanner] over the file with the mode
    [GoTokens] minus [SkipComments] and the default white space
    [GoWhitespace], and silences its error handler.  The scanner is Go's
    standard library and is modelled here from its documented behaviour:

    - the source is scanned byte by byte.  The scanner decodes UTF-8, but
      every byte it gives a meaning to (quotes, slash, star, backslash, new
      line, blank, the letters and digits of escapes) is ASCII, and no byte of
      a multi-byte sequence is ASCII, so the bytes of such a sequence pass as
      bytes without a meaning of their own;
    - comments, string, character and raw string literals are scanned as the
      scanner does, unterminated ones included (the error handler is a no-op);
    - identifiers and numbers are not grouped: each of their bytes is a token
      [Other] of its own, as a lone operator character is.  No identifier or
      number contains a quote or a slash, and [stripComments] copies every
      token that is not a comment, so the grouping cannot reach its result:
      [scanAtG] below is the scanner with a grouping of such bytes into
      [Ident], [Int] and [Float] tokens left open, and [stripFromG_strip]
      shows that the stripped text is the same for every grouping. *)

Module Scanner.

Local Open Scope nat_scope.

Inductive Token : Type :=
  | EOF
  | Ident
  | Int
  | Float
  | Char
  | String
  | RawString
  | Comment
  | Other (ch : byte).

Definition isComment (tok : Token) : bool :=
  match tok with Comment => true | _ => false end.

Definition isEOF (tok : Token) : bool :=
  match tok with EOF => true | _ => false end.

(** [s.Whitespace&(1<<uint(ch)) != 0] for [GoWhitespace]:
    tab, new line, carriage return and blank. *)
Definition isWhitespace (ch : byte) : bool :=
  match ch with
  | x09 | x0a | x0d | x20 => true
  | _ => false
  end.

(** [digitVal]: the value of a hexadecimal digit, 16 for any other byte. *)
Definition digitVal (ch : byte) : nat :=
  match ch with
  | x30 => 0 | x31 => 1 | x32 => 2 | x33 => 3 | x34 => 4
  | x35 => 5 | x36 => 6 | x37 => 7 | x38 => 8 | x39 => 9
  | x61 | x41 => 10 | x62 | x42 => 11 | x63 | x43 => 12
  | x64 | x44 => 13 | x65 | x45 => 14 | x66 | x46 => 15
  | _ => 16
  end.

(** The loops of the scanner read one byte at a time and stop on a byte
    that ends the token.  [run step st l] is the number of bytes of [l]
    such a loop consumes from state [st]. *)
Inductive stepResult (St : Type) : Type :=
  | Continue (st : St)
  | StopAfter    (* the byte belongs to the token and ends it *)
  | StopBefore.  (* the byte is left unread *)
Arguments Continue {St} st.
Arguments StopAfter {St}.
Arguments StopBefore {St}.

Fixpoint run {St : Type} (step : St -> byte -> stepResult St) (st : St)
    (l : list byte) : nat :=
  match l with
  | [] => 0
  | ch :: r =>
      match step st ch with
      | Continue st' => S (run step st' r)
      | StopAfter => 1
      | StopBefore => 0
      end
  end.

(** [scanString], with [scanEscape] and [scanDigits] unfolded into the
    states of the loop. *)
Inductive strState : Type :=
  | Plain
  | Escape                      (* the byte before was a backslash *)
  | Digits (base n : nat).      (* inside [scanDigits], [n] digits to go *)

Definition plainStep (quote ch : byte) : stepResult strState :=
  if Byte.eqb ch quote then StopAfter
  else if Byte.eqb ch x0a then StopAfter    (* literal not terminated *)
  else if Byte.eqb ch "\" then Continue Escape
  else Continue Plain.

Definition strStep (quote : byte) (st : strState) (ch : byte)
    : stepResult strState :=
  match st with
  | Plain => plainStep quote ch
  | Escape =>
      if Byte.eqb ch quote then Continue Plain
      else
        match ch with
        | "a" | "b" | "f" | "n" | "r" | "t" | "v" | "\" => Continue Plain
        | "0" | "1" | "2" | "3" | "4" | "5" | "6" | "7" =>
            Continue (Digits 8 2)
        | "x" => Continue (Digits 16 2)
        | "u" => Continue (Digits 16 4)
        | "U" => Continue (Digits 16 8)
        | _ => plainStep quote ch           (* invalid char escape *)
        end%byte
  | Digits base (S n) =>
      if digitVal ch <? base then Continue (Digits base n)
      else plainStep quote ch
  | Digits base O => plainStep quote ch
  end.

(** Bytes read after the opening quote, the closing quote (or the new line
    that cuts the literal short) included. *)
Definition scanString (quote : byte) (l : list byte) : nat :=
  run (strStep quote) Plain l.

Definition rawStep (_ : unit) (ch : byte) : stepResult unit :=
  if Byte.eqb ch "`" then StopAfter else Continue tt.

Definition scanRawString (l : list byte) : nat := run rawStep tt l.

(** Line comment: up to the new line, which is left unread. *)
Definition lineStep (_ : unit) (ch : byte) : stepResult unit :=
  if Byte.eqb ch x0a then StopBefore else Continue tt.

(** General comment: up to the first star that a slash follows; the state
    is whether the byte before was a star. *)
Definition generalStep (star : bool) (ch : byte) : stepResult bool :=
  if star && Byte.eqb ch "/" then StopAfter
  else Continue (Byte.eqb ch "*").

(** [scanComment ch l]: bytes read after the two bytes that open the
    comment, [ch] being the second of them. *)
Definition scanComment (ch : byte) (l : list byte) : nat :=
  if Byte.eqb ch "/" then run lineStep tt l else run generalStep false l.

Fixpoint skipWhitespace (l : list byte) : nat :=
  match l with
  | ch :: r => if isWhitespace ch then S (skipWhitespace r) else 0
  | [] => 0
  end.

(** The switch of [Scan] that determines the token: the token that starts
    at the head of [l], which is not white space, and the length of its
    text. *)
Definition scanToken (l : list byte) : Token * nat :=
  match l with
  | [] => (EOF, 0)
  | ch :: r =>
      if Byte.eqb ch x22 then (String, S (scanString ch r))
      else if Byte.eqb ch "'" then (Char, S (scanString ch r))
      else if Byte.eqb ch "`" then (RawString, S (scanRawString r))
      else if Byte.eqb ch "/" then
        match r with
        | ch' :: r' =>
            if Byte.eqb ch' "/" || Byte.eqb ch' "*"
            then (Comment, 2 + scanComment ch' r')
            else (Other ch, 1)
        | [] => (Other ch, 1)
        end
      else (Other ch, 1)
  end.

(** One call of [Scan] on the unread input [l]: the token, the length of
    the white space skipped before it and the length of its text. *)
Definition scanAt (l : list byte) : Token * nat * nat :=
  let w := skipWhitespace l in
  let '(tok, n) := scanToken (skipn w l) in
  (tok, w, n).

(** Bytes that may stand in an identifier or a number: neither white
    space nor a byte that opens a literal or a comment. *)
Definition inert (ch : byte) : bool :=
  negb (isWhitespace ch) && negb (Byte.eqb ch x22) && negb (Byte.eqb ch "'")
    && negb (Byte.eqb ch "`") && negb (Byte.eqb ch "/").

Section Grouping.

(** [group l] is the identifier or number at the head of [l], if the
    scanner finds one there: its token and the length of its text. *)
Variable group : list byte -> option (Token * nat).

Definition scanTokenG (l : list byte) : Token * nat :=
  match group l with
  | Some (tok, n) => (tok, n)
  | None => scanToken l
  end.

Definition scanAtG (l : list byte) : Token * nat * nat :=
  let w := skipWhitespace l in
  let '(tok, n) := scanTokenG (skipn w l) in
  (tok, w, n).

End Grouping.

(** A grouping: identifiers of ASCII letters, digits and underscores, and
    numbers that are runs of ASCII digits. *)
Definition isLetter (ch : byte) : bool :=
  let n := Byte.to_N ch in
  ((65 <=? n) && (n <=? 90) || (97 <=? n) && (n <=? 122) || (n =? 95))%N.

Definition isDecimal (ch : byte) : bool :=
  let n := Byte.to_N ch in ((48 <=? n) && (n <=? 57))%N.

Fixpoint spanLen (p : byte -> bool) (l : list byte) : nat :=
  match l with
  | ch :: r => if p ch then S (spanLen p r) else 0
  | [] => 0
  end.

Definition asciiWords (l : list byte) : option (Token * nat) :=
  match l with
  | ch :: r =>
      if isLetter ch
      then Some (Ident, S (spanLen (fun c => isLetter c || isDecimal c) r))
      else if isDecimal ch then Some (Int, S (spanLen isDecimal r))
      else None
  | [] => None
  end.

(** The scanner: its source, the offset of the next unread byte, and the
    extent of the text of the last token. *)
Record Scanner : Type := {
  src : list byte;
  srcPos : nat;
  tokPos : nat;
  tokEnd : nat
}.

Definition Init (data : list byte) : Scanner :=
  {| src := data; srcPos := 0; tokPos := 0; tokEnd := 0 |}.

Definition Scan (s : Scanner) : Token * Scanner :=
  let '(tok, w, n) := scanAt (skipn (srcPos s) (src s)) in
  (tok, {| src := src s;
           srcPos := srcPos s + w + n;
           tokPos := srcPos s + w;
           tokEnd := srcPos s + w + n |}).

(** [s.Pos().Offset]: the offset of the byte after the last token. *)
Definition PosOffset (s : Scanner) : nat := srcPos s.

Definition TokenText (s : Scanner) : list byte :=
  firstn (tokEnd s - tokPos s) (skipn (tokPos s) (src s)).

End Scanner.

(** ** Packages [bytes] and [unicode] *)

Module Bytes.

(** [bytes.IndexByte]: the index of the first [c] in [b], or -1. *)
Fixpoint IndexByte (b : list byte) (c : byte) : Z :=
  match b with
  | [] => -1
  | x :: r =>
      if Byte.eqb x c then 0
      else
        let i := IndexByte r c in
        if i =? -1 then -1 else i + 1
  end.

(** [data[i:j]] *)
Definition slice (data : list byte) (i j : nat) : list byte :=
  firstn (j - i) (skipn i data).

(** [unicode.IsSpace(rune(r))] for a byte [r]: the Latin-1 white space,
    which is tab, new line, vertical tab, form feed, carriage return, blank,
    U+0085 (NEL) and U+00A0 (NBSP). *)
Definition IsSpace (r : byte) : bool :=
  match r with
  | x09 | x0a | x0b | x0c | x0d | x20 | x85 | xa0 => true
  | _ => false
  end.

End Bytes.

(** ** Go's [error] values *)

Module Err.

(** The errors the command tells apart: the value [errEmptyJSONFile],
    the errors on which [os.IsNotExist] holds, and every other error, known
    by its text only. *)
Inductive error : Type :=
  | EmptyJSONFile
  | NotExist (msg : string)
  | Other (msg : string).

(** Modelled from the spec: the variable [errEmptyJSONFile], with which
    [parseGraphData] compares the error of [readJSONFileFS] by [==], is not
    declared in the sources at hand.  It stands for the condition of an
    artifact that exists but is empty, a condition of its own next to "not
    found", and is an error value of its own, equal to no error of [Open],
    of the decoder or of [Close].  The [readJSONFileFS] of the sources hands
    on the errors of these three and makes none of its own, so it never
    returns this value. *)
Definition errEmptyJSONFile : error := EmptyJSONFile.

(** [io.EOF], the error of a reader at the end of its input; its text is
    "EOF".  [json.Decoder.Decode] answers it when the input ends before any
    value, as in a file of no bytes. *)
Definition io_EOF : error := Other "EOF".

#[global] Instance error_eq_dec : EqDecision error.
Proof. solve_decision. Defined.

(** [os.IsNotExist] *)
Definition IsNotExist (err : error) : bool :=
  match err with
  | NotExist _ => true
  | _ => false
  end.

(** [err.Error()], which is what the verb [%s] prints. *)
Definition Error (err : error) : string :=
  match err with
  | EmptyJSONFile => "empty JSON file"
  | NotExist msg => msg
  | Other msg => msg
  end.

End Err.

(** ** Package [unit] *)

Module Unit.

(** [unit.SourceUnit], of which the command reads [Type] and [Name]. *)
Record SourceUnit : Type := {
  Type_ : string;
  Name : string
}.

End Unit.

(** ** Package [graph] *)

Module Graph.

(** Modelled from the spec: [graph.DefKey], [graph.Def], [graph.Ref] and
    [graph.Output] are declared in files of package [graph] that are not
    among the sources at hand.  A definition key carries an
    originating-repository field, a unit type, a unit name and a path within
    the unit; a definition is a key and the file it occurs in; a reference is
    the file it occurs in and the key of the definition it points to, held in
    the four fields [DefRepo], [DefUnitType], [DefUnit] and [DefPath]. *)
Record DefKey : Type := {
  Repo : string;
  UnitType : string;
  Unit : string;
  Path : string
}.

#[global] Instance DefKey_eq_dec : EqDecision DefKey.
Proof. solve_decision. Defined.

#[global] Instance DefKey_countable : Countable DefKey :=
  inj_countable'
    (fun k => (Repo k, UnitType k, Unit k, Path k))
    (fun '(r, t, u, p) => {| Repo := r; UnitType := t; Unit := u; Path := p |})
    (fun k => match k with Build_DefKey _ _ _ _ => eq_refl end).

(** Modelled from the spec: [graph.Def], a key (the embedded [DefKey]) and
    the file the definition occurs in. *)
Record Def : Type := {
  Key : DefKey;       (* the embedded [DefKey] *)
  DefFile : string    (* [File] *)
}.

(** Modelled from the spec: [graph.Ref], the key of the definition the
    reference points to and the file the reference occurs in. *)
Record Ref : Type := {
  DefRepo : string;
  DefUnitType : string;
  DefUnit : string;
  DefPath : string;
  File : string
}.

(** Modelled from the spec: the method [DefKey] of [*Ref] reads the key of the definition
    the reference points to off its four fields. *)
Definition Ref_DefKey (r : Ref) : DefKey :=
  {| Repo := DefRepo r; UnitType := DefUnitType r;
     Unit := DefUnit r; Path := DefPath r |}.

(** Modelled from the spec: the method [SetFromDefKey] of [*Ref] stores a key into those
    four fields. *)
Definition SetFromDefKey (r : Ref) (k : DefKey) : Ref :=
  {| DefRepo := Repo k; DefUnitType := UnitType k;
     DefUnit := Unit k; DefPath := Path k; File := File r |}.

(** Modelled from the spec: [graph.Output], an artifact as the JSON
    decoder delivers it, an ordered sequence of definitions and an ordered
    sequence of references ([Defs []*Def] and [Refs []*Ref], here the values
    the pointers lead to). *)
Record Output : Type := {
  Defs : list Def;
  Refs : list Ref
}.

End Graph.

(** ** Package [path/filepath] and the file tree *)

Module Filepath.

Import Err.

(** [filepath.Ext]: the suffix beginning at the final dot in the final
    element of the path, empty if there is no dot.  The loop runs from the
    end of the path, so it is written on the reversed path; [acc] holds the
    characters already passed. *)
Fixpoint extLoop (rpath : list ascii) (acc : list ascii) : string :=
  match rpath with
  | [] => ""
  | c :: rpath' =>
      if Ascii.eqb c "/" then ""
      else if Ascii.eqb c "." then string_of_list_ascii (c :: acc)
      else extLoop rpath' (c :: acc)
  end.

Definition Ext (path : string) : string :=
  extLoop (rev (list_ascii_of_string path)) [].

(** A file tree as [filepath.Walk] sees it.  A file carries what
    [ioutil.ReadFile] answers for it; the entries of a directory stand in the
    order in which [Walk] visits them. *)
#[warnings="-register-all"]
Inductive Node : Type :=
  | FileNode (name : string) (read : error + list byte)
  | DirNode (name : string) (entries : list Node).

Definition InfoName (n : Node) : string :=
  match n with
  | FileNode name _ => name
  | DirNode name _ => name
  end.

Definition IsDir (n : Node) : bool :=
  match n with
  | FileNode _ _ => false
  | DirNode _ _ => true
  end.

(** What a [WalkFunc] returns other than [nil]. *)
Inductive walkErr : Type :=
  | SkipDir
  | Fail (err : error).

(** The path of an entry of the directory [dir], relative to the root and
    slash-separated, which is what the callback makes of the path it is
    given; the root itself is ["."]. *)
Definition join (dir name : string) : string :=
  if decide (dir = ".") then name else (dir ++ "/" ++ name)%string.

Section Walk.

Context {A : Type}.
Variable walkFn : string -> Node -> A -> A * option walkErr.

(** [filepath.walk]: the callback on the node, then on the entries of a
    directory in their order.  An error stops the walk, except [SkipDir]
    returned for a directory, which only skips that directory. *)
Fixpoint walk (path : string) (n : Node) (a : A) : A * option walkErr :=
  match n with
  | FileNode _ _ => walkFn path n a
  | DirNode _ entries =>
      let '(a, err1) := walkFn path n a in
      match err1 with
      | Some _ => (a, err1)
      | None =>
          (fix walkEntries (es : list Node) (a : A) : A * option walkErr :=
             match es with
             | [] => (a, None)
             | e :: es' =>
                 let '(a', err) := walk (join path (InfoName e)) e a in
                 match err with
                 | None => walkEntries es' a'
                 | Some SkipDir =>
                     if IsDir e then walkEntries es' a' else (a', err)
                 | Some (Fail _) => (a', err)
                 end
             end) entries a
      end
  end.

(** [filepath.Walk]: [SkipDir] from the root is not an error. *)
Definition Walk (root : Node) (a : A) : A * option error :=
  let '(a, err) := walk "." root a in
  (a, match err with
      | Some (Fail e) => Some e
      | _ => None
      end).

End Walk.

End Filepath.

(** ** The build data and the build plan *)

Module Plan.

Import Err Unit Graph.

(** A file of the build-data file system: what [json.NewDecoder(f).Decode]
    answers on it and what [f.Close] answers. *)
Record vfile : Type := {
  decode : error + Output;
  close : option error
}.

(** [vfs.FileSystem], of which the command uses [Open]. *)
Definition FileSystem : Type := string -> error + vfile.

(** The rules of the makefile: [*grapher.GraphUnitRule] with its target
    and unit, [*grapher.GraphMultiUnitsRule] with its targets in the order
    in which the loop ranges over them, and any other rule. *)
Inductive Rule : Type :=
  | GraphUnitRule (target : string) (unit : SourceUnit)
  | GraphMultiUnitsRule (targets : list (string * SourceUnit))
  | OtherRule.

End Plan.

(** ** Package [cli]: [coverage_cmd.go] and the helpers it calls *)

Module Cli.

Import Err Unit Graph.

(** *** Line counting *)

(** [isNotBlank] returns true if data contains at least one
    not-whitespace character. *)
Fixpoint isNotBlank (data : list byte) : bool :=
  match data with
  | [] => false
  | r :: data' => if negb (Bytes.IsSpace r) then true else isNotBlank data'
  end.

(** The loop of [stripComments].  [tok] is scanned at the head of every
    turn; [fuel] bounds the number of turns, and [stripComments] gives one
    turn per byte and one more, which the loop never uses up since every
    token but [EOF] is at least one byte long. *)
Fixpoint stripLoop (fuel : nat) (data : list byte) (s : Scanner.Scanner)
    (offset : nat) (ret : list byte) : list byte :=
  match fuel with
  | O => ret ++ skipn offset data
  | S fuel' =>
      let '(tok, s') := Scanner.Scan s in
      if Scanner.isEOF tok then ret ++ skipn offset data
      else
        let pos := Scanner.PosOffset s' in
        let ret' :=
          if Scanner.isComment tok
          then ret ++ Bytes.slice data offset
                        (pos - length (Scanner.TokenText s'))
          else ret ++ Bytes.slice data offset pos in
        stripLoop fuel' data s' pos ret'
  end.

(** [stripComments] strips single line (//) and multi line (/* */)
    comments from the data. *)
Definition stripComments (data : list byte) : list byte :=
  stripLoop (S (length data)) data (Scanner.Init data) 0%nat [].

(** The same stripper read off the unread input alone, without offsets:
    the white space before a token is kept, the token is kept unless it is a
    comment, and the rest is stripped in turn.  [stripComments_strip] shows
    that this is what [stripComments] computes. *)
Fixpoint stripFrom (fuel : nat) (l : list byte) : list byte :=
  match fuel with
  | O => l
  | S fuel' =>
      let '(tok, w, n) := Scanner.scanAt l in
      if Scanner.isEOF tok then l
      else
        (if Scanner.isComment tok then firstn w l else firstn (w + n) l)
          ++ stripFrom fuel' (skipn (w + n) l)
  end.

Definition strip (l : list byte) : list byte := stripFrom (S (length l)) l.

(** The stripper over a scanner that groups identifiers and numbers. *)
Fixpoint stripFromG (group : list byte -> option (Scanner.Token * nat))
    (fuel : nat) (l : list byte) : list byte :=
  match fuel with
  | O => l
  | S fuel' =>
      let '(tok, w, n) := Scanner.scanAtG group l in
      if Scanner.isEOF tok then l
      else
        (if Scanner.isComment tok then firstn w l else firstn (w + n) l)
          ++ stripFromG group fuel' (skipn (w + n) l)
  end.

(** The loop of [numLines]; [len], [start] and [pos] are Go [int]s.  Every
    turn moves [start] forward by one byte at least, so [fuel] turns, one per
    byte, are never used up. *)
Fixpoint numLinesLoop (fuel : nat) (data : list byte) (len count start pos : Z)
    : Z :=
  match fuel with
  | O => count
  | S fuel' =>
      if negb (pos =? -1) && (start <? len) then
        let l := Bytes.slice data (Z.to_nat start)
                   (Z.to_nat (Int.add (Int.add start pos) 1)) in
        let count := if isNotBlank l then Int.incr count else count in
        let start := Int.add start (Int.add pos 1) in
        let pos := Bytes.IndexByte (skipn (Z.to_nat start) data) x0a in
        numLinesLoop fuel' data len count start pos
      else count
  end.

(** [numLines] counts the number of lines that
    - are not blank
    - do not look like comments *)
Definition numLines (data : list byte) : Z :=
  let data := stripComments data in
  let len := Z.of_nat (length data) in
  if len =? 0 then 0
  else
    let count := 1 in
    let start := 0 in
    let pos := Bytes.IndexByte (skipn (Z.to_nat start) data) x0a in
    numLinesLoop (S (length data)) data len count start pos.

(** The count in the words of the specification: the segments of the text
    are its lines, each ended by its new line, and what follows the last new
    line; a segment counts if it holds a byte that is not white space.
    [seen] tells whether the segment under way already holds such a byte.
    [terminatedLines] counts the same segments but the last. *)
Fixpoint segmentsNotBlank (l : list byte) (seen : bool) : Z :=
  match l with
  | [] => if seen then 1 else 0
  | ch :: r =>
      if Byte.eqb ch x0a
      then (if seen then 1 else 0) + segmentsNotBlank r false
      else segmentsNotBlank r (seen || negb (Bytes.IsSpace ch))
  end.

Fixpoint terminatedLines (l : list byte) (seen : bool) : Z :=
  match l with
  | [] => 0
  | ch :: r =>
      if Byte.eqb ch x0a
      then (if seen then 1 else 0) + terminatedLines r false
      else terminatedLines r (seen || negb (Bytes.IsSpace ch))
  end.

(** Whether what follows the last new line is blank. *)
Fixpoint lastSegmentBlank (l : list byte) (seen : bool) : bool :=
  match l with
  | [] => negb seen
  | ch :: r =>
      if Byte.eqb ch x0a then lastSegmentBlank r false
      else lastSegmentBlank r (seen || negb (Bytes.IsSpace ch))
  end.

(** *** Normalizing definition keys *)

(** [adjustDefKey] normalizes DefKey to be used in map.get() operations;
    the following fields are used for comparison: UnitType, Unit, Path. *)
Definition adjustDefKey (key : DefKey) (unit : SourceUnit) : DefKey :=
  let ret := {| Repo := ""; UnitType := UnitType key;
                Unit := Graph.Unit key; Path := Path key |} in
  let ret := if decide (UnitType ret = "")
             then {| Repo := Repo ret; UnitType := Type_ unit;
                     Unit := Graph.Unit ret; Path := Path ret |}
             else ret in
  let ret := if decide (Graph.Unit ret = "")
             then {| Repo := Repo ret; UnitType := UnitType ret;
                     Unit := Name unit; Path := Path ret |}
             else ret in
  ret.

(** *** Quotients *)

Definition fileTokThresh : F64.float64 := F64.lit_0_7.

Definition divideSentinel (x y sentinel : F64.float64) : F64.float64 :=
  let q := F64.div x y in
  if F64.IsNaN q then sentinel else q.

(** *** The command *)

Import Filepath Plan.

Record codeFileDatum : Type := {
  LoC : Z;
  NumRefs : Z;
  NumDefs : Z;
  NumRefsValid : Z;
  Language : string
}.

(** [codeFileData[path] = &codeFileDatum{LoC: loc, Language: lang}] *)
Definition newDatum (loc : Z) (lang : string) : codeFileDatum :=
  {| LoC := loc; NumRefs := 0; NumDefs := 0; NumRefsValid := 0;
     Language := lang |}.

Definition langToExts : list (string * list string) :=
  [ ("Go", [".go"]);
    ("Java", [".java"]);
    ("Python", [".py"]);
    ("Ruby", [".rb"]);
    ("C++", [".cpp"]);
    ("TypeScript", [".ts"]);
    ("C#", [".cs"]);
    ("JavaScript", [".js"]);
    ("PHP", [".php"]);
    ("Objective-C", [".m"]) ]%string.

(** The second [init]: [extToLang[ext] = lang] for every extension of every
    language.  No extension belongs to two languages, so the order in which
    Go ranges over [langToExts] does not show. *)
Definition extToLang : gmap string string :=
  foldl (fun m '(lang, exts) => foldl (fun m ext => <[ext := lang]> m) m exts)
        ∅ langToExts.

(** The function literal given to [filepath.Walk].  [path] is the path
    relative to the root with slashes, which the literal computes first. *)
Definition walkFn (path : string) (info : Node)
    (codeFileData : gmap string codeFileDatum)
    : gmap string codeFileDatum * option walkErr :=
  match info with
  | DirNode name _ =>
      if String.prefix "." name
      then (codeFileData, Some SkipDir)   (* don't search hidden directories *)
      else (codeFileData, None)
  | FileNode _ read =>
      let ext := Ext path in
      match extToLang !! ext with
      | Some lang =>
          match read with
          | inl err => (codeFileData, Some (Fail err))
          | inr b =>
              let loc := numLines b in
              (<[path := newDatum loc lang]> codeFileData, None)
          end
      | None => (codeFileData, None)
      end
  end.

(** [readJSONFileFS], from the helpers of package [cli]: open, decode,
    and close on the way out; the error of [Close] is reported only if there
    was none before. *)
Definition readJSONFileFS (fs : FileSystem) (file : string) : error + Output :=
  match fs file with
  | inl err => inl err
  | inr f =>
      match decode f with
      | inl err => inl err
      | inr v =>
          match close f with
          | Some err2 => inl err2
          | None => inr v
          end
      end
  end.

(** A [graph.Output] in memory.  Its [Refs] are pointers, and
    [parseGraphData] writes through them after it has appended the output to
    [data]; the references therefore live in a store, [heap], and an output
    holds their addresses. *)
Record Item : Type := {
  iDefs : list Def;
  iRefs : list nat
}.

(** What the closure [parseGraphData] captures and changes, the warnings
    [log.Printf] has written included. *)
Record LoadState : Type := {
  heap : list Ref;
  defKeys : gset DefKey;
  data : list Item;
  log : list string
}.

(** Decoding an artifact into [item] allocates its references. *)
Definition allocItem (v : Output) (heap : list Ref) : Item * list Ref :=
  ({| iDefs := Defs v; iRefs := seq (length heap) (length (Refs v)) |},
   heap ++ Refs v).

(** A line written by [log.Printf]. *)
Definition addLog (st : LoadState) (line : string) : LoadState :=
  {| heap := heap st; defKeys := defKeys st; data := data st;
     log := log st ++ [line] |}.

Definition warnEmpty (u : SourceUnit) : string :=
  ("Warning: the JSON file is empty for unit " ++ Type_ u ++ " " ++ Name u
     ++ ".")%string.

Definition warnNoData (u : SourceUnit) : string :=
  ("Warning: no build data for unit " ++ Type_ u ++ " " ++ Name u
     ++ ".")%string.

Definition errReading (graphFile : string) (u : SourceUnit) (err : error)
    : error :=
  Other ("error reading JSON file " ++ graphFile ++ " for unit " ++ Type_ u
           ++ " " ++ Name u ++ ": " ++ Error err)%string.

(** [ref.SetFromDefKey(adjustDefKey(ref.DefKey(), sourceUnit))]: what
    the reference [ref] is after it, and the call through the pointer [p]. *)
Definition normalized (sourceUnit : SourceUnit) (ref : Ref) : Ref :=
  SetFromDefKey ref (adjustDefKey (Ref_DefKey ref) sourceUnit).

Definition normalizeRef (sourceUnit : SourceUnit) (heap : list Ref) (p : nat)
    : list Ref :=
  alter (normalized sourceUnit) p heap.

Definition parseGraphData (bdfs : FileSystem) (graphFile : string)
    (sourceUnit : SourceUnit) (st : LoadState) : LoadState * option error :=
  match readJSONFileFS bdfs graphFile with
  | inl err =>
      if decide (err = errEmptyJSONFile) then
        (addLog st (warnEmpty sourceUnit), None)
      else if IsNotExist err then
        (addLog st (warnNoData sourceUnit), None)
      else (st, Some (errReading graphFile sourceUnit err))
  | inr v =>
      let '(item, heap1) := allocItem v (heap st) in
      let data1 := data st ++ [item] in
      let defKeys1 :=
        foldl (fun keys def => {[ adjustDefKey (Key def) sourceUnit ]} ∪ keys)
              (defKeys st) (iDefs item) in
      let heap2 := foldl (normalizeRef sourceUnit) heap1 (iRefs item) in
      ({| heap := heap2; defKeys := defKeys1; data := data1; log := log st |},
       None)
  end.

(** The inner loop over [rule.Targets()]. *)
Fixpoint parseTargets (bdfs : FileSystem) (targets : list (string * SourceUnit))
    (st : LoadState) : LoadState * option error :=
  match targets with
  | [] => (st, None)
  | (target, sourceUnit) :: targets' =>
      match parseGraphData bdfs target sourceUnit st with
      | (st', Some err) => (st', Some err)
      | (st', None) => parseTargets bdfs targets' st'
      end
  end.

(** The loop over [mf.Rules]; an error makes [coverage] return it. *)
Fixpoint loadRules (bdfs : FileSystem) (rules : list Rule) (st : LoadState)
    : LoadState * option error :=
  match rules with
  | [] => (st, None)
  | rule_ :: rules' =>
      let '(st', err) :=
        match rule_ with
        | GraphUnitRule target unit => parseGraphData bdfs target unit st
        | GraphMultiUnitsRule targets => parseTargets bdfs targets st
        | OtherRule => (st, None)
        end in
      match err with
      | Some _ => (st', err)
      | None => loadRules bdfs rules' st'
      end
  end.

(** Folding one reference into the data of its file.  (The slice
    [validRefs] the loop also fills is never read and is left out.) *)
Definition foldRef (defKeys : gset DefKey) (heap : list Ref)
    (codeFileData : gmap string codeFileDatum) (p : nat)
    : gmap string codeFileDatum :=
  match heap !! p with
  | None => codeFileData
  | Some ref =>
      match codeFileData !! File ref with
      | Some datum =>
          let numRefs := Int.incr (NumRefs datum) in
          let numRefsValid :=
            if negb (bool_decide (DefRepo ref = "")) then
              Int.incr (NumRefsValid datum)
            else if bool_decide (Ref_DefKey ref ∈ defKeys) then
              Int.incr (NumRefsValid datum)
            else NumRefsValid datum in
          <[File ref := {| LoC := LoC datum; NumRefs := numRefs;
                           NumDefs := NumDefs datum;
                           NumRefsValid := numRefsValid;
                           Language := Language datum |}]> codeFileData
      | None => codeFileData
      end
  end.

Definition foldDef (codeFileData : gmap string codeFileDatum) (def : Def)
    : gmap string codeFileDatum :=
  match codeFileData !! DefFile def with
  | Some datum =>
      <[DefFile def := {| LoC := LoC datum; NumRefs := NumRefs datum;
                          NumDefs := Int.incr (NumDefs datum);
                          NumRefsValid := NumRefsValid datum;
                          Language := Language datum |}]> codeFileData
  | None => codeFileData
  end.

Definition foldItem (defKeys : gset DefKey) (heap : list Ref)
    (codeFileData : gmap string codeFileDatum) (item : Item)
    : gmap string codeFileDatum :=
  let codeFileData := foldl (foldRef defKeys heap) codeFileData (iRefs item) in
  foldl foldDef codeFileData (iDefs item).

Record langStats : Type := {
  numFiles : Z;
  numIndexedFiles : Z;
  numDefs : Z;
  numRefs : Z;
  numRefsValid : Z;
  uncoveredFiles : list string;
  loc : Z
}.

(** [&langStats{}] *)
Definition emptyStats : langStats :=
  {| numFiles := 0; numIndexedFiles := 0; numDefs := 0; numRefs := 0;
     numRefsValid := 0; uncoveredFiles := []; loc := 0 |}.

(** The test of the per-file decision:
    [float64(datum.NumDefs+datum.NumRefsValid)/float64(datum.LoC) > fileTokThresh] *)
Definition fileCovered (datum : codeFileDatum) : bool :=
  F64.gt (F64.div (F64.of_int (Int.add (NumDefs datum) (NumRefsValid datum)))
                  (F64.of_int (LoC datum)))
         fileTokThresh.

(** One file added to the statistics of its language. *)
Definition addFile (s : langStats) (file : string) (datum : codeFileDatum)
    : langStats :=
  let covered := fileCovered datum in
  {| numFiles := Int.incr (numFiles s);
     loc := Int.add (loc s) (LoC datum);
     numDefs := Int.add (numDefs s) (NumDefs datum);
     numRefs := Int.add (numRefs s) (NumRefs datum);
     numRefsValid := Int.add (numRefsValid s) (NumRefsValid datum);
     numIndexedFiles :=
       if covered then Int.incr (numIndexedFiles s) else numIndexedFiles s;
     uncoveredFiles :=
       if covered then uncoveredFiles s else uncoveredFiles s ++ [file] |}.

Definition statsStep (stats : gmap string langStats)
    (entry : string * codeFileDatum) : gmap string langStats :=
  let '(file, datum) := entry in
  let s := default emptyStats (stats !! Language datum) in
  <[Language datum := addFile s file datum]> stats.

(** [cvg.Coverage] *)
Record Coverage : Type := {
  FileScore : F64.float64;
  RefScore : F64.float64;
  TokDensity : F64.float64;
  UncoveredFiles : list string
}.

Definition toCoverage (s : langStats) : Coverage :=
  {| FileScore :=
       divideSentinel (F64.of_int (numIndexedFiles s))
                      (F64.of_int (numFiles s)) F64.minus_one;
     RefScore :=
       divideSentinel (F64.of_int (numRefsValid s))
                      (F64.of_int (numRefs s)) F64.minus_one;
     TokDensity :=
       divideSentinel (F64.of_int (Int.add (numDefs s) (numRefs s)))
                      (F64.of_int (loc s)) F64.minus_one;
     UncoveredFiles := uncoveredFiles s |}.

(** What [coverage] reads of the world: the tree under [repo.RootDir], and
    the answers of [GetBuildDataFS], [config.ReadCached] and
    [plan.CreateMakefile] (the rules of the makefile). *)
Record World : Type := {
  root : Node;
  buildDataFS : error + FileSystem;
  readCached : option error;
  createMakefile : error + list Rule
}.

(** The three parts of [coverage], named after its comments:
    "Gather file data", the folding of the graph data into it, and "Compute
    coverage from per-file data".  Go ranges over a map in an order of its
    choice; the model takes the order of [map_to_list]. *)
Definition gatherFileData (w : World)
    : gmap string codeFileDatum * option error :=
  Walk walkFn (root w) ∅.

Definition initState : LoadState :=
  {| heap := []; defKeys := ∅; data := []; log := [] |}.

Definition foldGraphData (st : LoadState)
    (codeFileData : gmap string codeFileDatum) : gmap string codeFileDatum :=
  foldl (foldItem (defKeys st) (heap st)) codeFileData (data st).

Definition computeCoverage (codeFileData : gmap string codeFileDatum)
    : gmap string Coverage :=
  let stats := foldl statsStep ∅ (map_to_list codeFileData) in
  toCoverage <$> stats.

(** The end of [coverage], from the loop over the rules on: the error of
    the loop if there is one, else the coverage computed from the file data
    and the graph data. *)
Definition finish (codeFileData : gmap string codeFileDatum)
    (loaded : LoadState * option error)
    : list string * (error + gmap string Coverage) :=
  match loaded with
  | (st, Some err) => (log st, inl err)
  | (st, None) =>
      (log st, inr (computeCoverage (foldGraphData st codeFileData)))
  end.

(** [coverage] returns the coverage of every language, or an error; the
    first component is what it has logged.  The error [filepath.Walk]
    returns is not bound to anything. *)
Definition coverage (w : World)
    : list string * (error + gmap string Coverage) :=
  let '(codeFileData, _) := gatherFileData w in
  match buildDataFS w with
  | inl err => ([], inl err)
  | inr bdfs =>
      match readCached w with
      | Some err =>
          ([], inl (Other ("error calling config.ReadCached: " ++ Error err)))
      | None =>
          match createMakefile w with
          | inl err =>
              ([], inl (Other ("error calling plan.Makefile: " ++ Error err)))
          | inr rules => finish codeFileData (loadRules bdfs rules initState)
          end
      end
  end.

(** The artifacts the loop over the rules reads, each with its unit, in
    the order in which it reaches them. *)
Definition ruleTargets (rule_ : Rule) : list (string * SourceUnit) :=
  match rule_ with
  | GraphUnitRule target unit => [(target, unit)]
  | GraphMultiUnitsRule targets => targets
  | OtherRule => []
  end.

End Cli.

(** ** Package [src]: [repo_opt.go] *)

Module Src.

Import Err.

(** [Repo], of which [repo_opt.go] reads the root directory, the clone URL
    and the commit. *)
Record Repo : Type := {
  RootDir : string;
  CloneURL : string;
  CommitID : string
}.

(** The package-level variables [localRepo], [localRepoErr] and
    [CacheLocalRepo]; a nil pointer and a nil error are [None]. *)
Record Pkg : Type := {
  localRepo : option Repo;
  localRepoErr : option error;
  CacheLocalRepo : bool
}.

(** The state the package starts in: nothing opened, caching on. *)
Definition initPkg : Pkg :=
  {| localRepo := None; localRepoErr := None; CacheLocalRepo := true |}.

Section OpenLocalRepo.

(** [OpenRepo] is declared in another file of the package.  It reads the
    surroundings of the process (the working directory, the file system),
    which are the type [Env], and answers with a repository and an error,
    each of which may be nil.  That it does not answer with both nil is a
    hypothesis of the theorems that need it. *)
Variable Env : Type.
Variable OpenRepo : string -> Env -> option Repo * option error.

(** [openLocalRepo] opens the VCS repository in or above the current
    directory.  The last component counts the calls of [OpenRepo]. *)
Definition openLocalRepo (env : Env) (st : Pkg)
    : (option Repo * option error) * Pkg * nat :=
  if negb (CacheLocalRepo st) then (OpenRepo "." env, st, 1%nat)
  else
    (* Only try to open the current-dir repo once *)
    match localRepo st, localRepoErr st with
    | None, None =>
        let '(r, e) := OpenRepo "." env in
        ((r, e),
         {| localRepo := r; localRepoErr := e;
            CacheLocalRepo := CacheLocalRepo st |},
         1%nat)
    | _, _ => ((localRepo st, localRepoErr st), st, 0%nat)
    end.

(** A run of the process as far as this file sees it: calls of
    [openLocalRepo], each in the surroundings of its moment, which anything
    ([os.Chdir], for example) may have changed since the call before.  The
    result lists what the calls returned and counts the calls of
    [OpenRepo]. *)
Fixpoint calls (envs : list Env) (st : Pkg)
    : list (option Repo * option error) * Pkg * nat :=
  match envs with
  | [] => ([], st, 0%nat)
  | env :: envs' =>
      let '(res, st1, k1) := openLocalRepo env st in
      let '(ress, st2, k2) := calls envs' st1 in
      (res :: ress, st2, (k1 + k2)%nat)
  end.

End OpenLocalRepo.

End Src.

(** ** Concrete inputs *)

Module Fixture.

Import Err Unit Graph Filepath Plan Cli.
Local Open Scope string_scope.

Definition bytes (s : string) : list byte := list_byte_of_string s.

(** A new line. *)
Definition nl : string := String "010" EmptyString.

Definition unitA : SourceUnit := {| Type_ := "GoPackage"; Name := "A" |}.
Definition unitB : SourceUnit := {| Type_ := "GoPackage"; Name := "B" |}.

(** A definition key that leaves its unit to the artifact it stands in. *)
Definition keyF : DefKey :=
  {| Repo := ""; UnitType := ""; Unit := ""; Path := "F" |}.

(** A build-data file system that holds the single artifact
    [A.graph.json]. *)
Definition oneArtifact (f : vfile) : FileSystem :=
  fun file =>
    if decide (file = "A.graph.json") then inr f
    else inl (NotExist ("open " ++ file ++ ": file does not exist")).

Definition decoded (v : Output) : vfile :=
  {| decode := inr v; close := None |}.

Definition planA : list Rule := [GraphUnitRule "A.graph.json" unitA].

(** A repository whose only source file, [a.go], is empty, and whose
    artifact declares one definition in that file. *)
Definition emptyFileWorld : World :=
  {| root := DirNode "repo" [FileNode "a.go" (inr [])];
     buildDataFS :=
       inr (oneArtifact
              (decoded {| Defs := [ {| Key := keyF; DefFile := "a.go" |} ];
                          Refs := [] |}));
     readCached := None;
     createMakefile := inr planA |}.

(** The data of that file once the definition is folded into it. *)
Definition emptyFileDatum : codeFileDatum :=
  {| LoC := 0; NumRefs := 0; NumDefs := 1; NumRefsValid := 0;
     Language := "Go" |}.

(** A reference out of [a.go] to a definition of another repository. *)
Definition externalRef : Ref :=
  {| DefRepo := "github.com/x/y"; DefUnitType := "GoPackage";
     DefUnit := "y"; DefPath := "F"; File := "a.go" |}.

(** A repository with a two-line [a.go] whose artifact declares no
    definition and that one reference. *)
Definition externalRefWorld : World :=
  {| root := DirNode "repo" [FileNode "a.go" (inr (bytes ("x" ++ nl ++ "y")))];
     buildDataFS :=
       inr (oneArtifact (decoded {| Defs := []; Refs := [externalRef] |}));
     readCached := None;
     createMakefile := inr planA |}.

(** A repository whose [a.go] cannot be read and whose [b.go] can. *)
Definition unreadableWorld : World :=
  {| root := DirNode "repo"
               [ FileNode "a.go" (inl (Other "open a.go: permission denied"));
                 FileNode "b.go" (inr (bytes ("x" ++ nl))) ];
     buildDataFS := inr (oneArtifact (decoded {| Defs := []; Refs := [] |}));
     readCached := None;
     createMakefile := inr planA |}.

(** A file of no bytes: the decoder finds the end of the input before any
    value. *)
Definition emptyFile : vfile := {| decode := inl io_EOF; close := None |}.

(** A plan of three units: the artifact of the first is missing, that of
    the second is a file of no bytes, that of the third is there. *)
Definition unitC : SourceUnit := {| Type_ := "GoPackage"; Name := "C" |}.

Definition threeArtifacts (third : vfile) : FileSystem :=
  fun file =>
    if decide (file = "B.graph.json") then inr emptyFile
    else if decide (file = "C.graph.json") then inr third
    else inl (NotExist ("open " ++ file ++ ": file does not exist")).

Definition planABC : list Rule :=
  [ GraphUnitRule "A.graph.json" unitA;
    GraphMultiUnitsRule [("B.graph.json", unitB); ("C.graph.json", unitC)] ].

Definition threeUnitsWorld (third : vfile) : World :=
  {| root := DirNode "repo" [FileNode "a.go" (inr (bytes ("x" ++ nl ++ "y")))];
     buildDataFS := inr (threeArtifacts third);
     readCached := None;
     createMakefile := inr planABC |}.

(** Surroundings that are a directory name, and an [OpenRepo] that finds
    a repository rooted at the working directory. *)
Definition openHere (dir env : string) : option Src.Repo * option error :=
  (Some {| Src.RootDir := env; Src.CloneURL := ""; Src.CommitID := "" |}, None).

End Fixture.

(** ** Package [cli]: the helpers of the command line *)

Module Util.

Import Err Unit Plan.

(** [strings.Index(s, sep)] for a separator of one byte: the index of the
    first such byte in [s], or -1. *)
Fixpoint Index (s : string) (sep : ascii) : Z :=
  match s with
  | EmptyString => -1
  | String x r =>
      if Ascii.eqb x sep then 0
      else
        let i := Index r sep in
        if i =? -1 then -1 else i + 1
  end.

(** [parseRepoAndCommitID] parses strings like "example.com/repo" and
    "example.com/repo@myrev". *)
Definition parseRepoAndCommitID (repoAndCommitID : string) : string * string :=
  let i := Index repoAndCommitID "@" in
  if negb (i =? -1) then
    (substring 0 (Z.to_nat i) repoAndCommitID,
     substring (Z.to_nat (Int.add i 1))
               (String.length repoAndCommitID - Z.to_nat (Int.add i 1))
               repoAndCommitID)
  else (repoAndCommitID, "").

Section MatchesArgs.

(** [string(u.ID())]: the method [ID] of a source unit is declared in
    package [unit]. *)
Variable ID : SourceUnit -> string.

(** The loop of [SourceUnitMatchesArgs], which breaks at the first
    match. *)
Fixpoint matchLoop (specified : list string) (u : SourceUnit) : bool :=
  match specified with
  | [] => false
  | unitSpec :: specified' =>
      if String.eqb (ID u) unitSpec || String.eqb (Name u) unitSpec then true
      else matchLoop specified' u
  end.

Definition SourceUnitMatchesArgs (specified : list string) (u : SourceUnit)
    : bool :=
  if (length specified =? 0)%nat then true else matchLoop specified u.

End MatchesArgs.

(** The constant [100] as a [float64]. *)
Definition lit_100 : F64.float64 := S754_finite false 7036874417766400 (-46).

(** [percent]: [100 * float64(num) / float64(denom)] *)
Definition percent (num denom : Z) : F64.float64 :=
  F64.div (SFmul 53 1024 lit_100 (F64.of_int num)) (F64.of_int denom).

End Util.

(** ** Package [src]: the defaults of the options *)

Module RepoOpt.

Import Err Src.

Section Defaults.

Variable Env : Type.
Variable OpenRepo : string -> Env -> option Repo * option error.

(** The option group of a command, [SetOptionDefaultValue], the method
    [URI] of a repository, [os.Getwd] and [filepath.Rel] (whose error the
    caller drops) are declared elsewhere. *)
Variable Group : Type.
Variable SetOptionDefaultValue : Group -> string -> string -> Group.
Variable URI : Repo -> string.
Variable Getwd : Env -> error + string.
Variable Rel : string -> string -> string.

(** The three functions call [openLocalRepo], drop what it returns and read
    the package variable [localRepo].  They return the package state, the
    option group and the number of calls of [OpenRepo]. *)
Definition setDefaultRepoURIOpt (env : Env) (st : Pkg) (g : Group)
    : Pkg * Group * nat :=
  let '(_, st', k) := openLocalRepo Env OpenRepo env st in
  match localRepo st' with
  | Some r =>
      if negb (String.eqb (CloneURL r) "")
      then (st', SetOptionDefaultValue g "repo" (URI r), k)
      else (st', g, k)
  | None => (st', g, k)
  end.

Definition setDefaultCommitIDOpt (env : Env) (st : Pkg) (g : Group)
    : Pkg * Group * nat :=
  let '(_, st', k) := openLocalRepo Env OpenRepo env st in
  match localRepo st' with
  | Some r =>
      if negb (String.eqb (CommitID r) "")
      then (st', SetOptionDefaultValue g "commit" (CommitID r), k)
      else (st', g, k)
  | None => (st', g, k)
  end.

(** [None] is the end of the process in [log.Fatal]. *)
Definition setDefaultRepoSubdirOpt (env : Env) (st : Pkg) (g : Group)
    : option (Pkg * Group * nat) :=
  let '(_, st', k) := openLocalRepo Env OpenRepo env st in
  match localRepo st' with
  | Some r =>
      match Getwd env with
      | inl _ => None
      | inr absDir =>
          let subdir := Rel (RootDir r) absDir in
          Some (st', SetOptionDefaultValue g "subdir" subdir, k)
      end
  | None => Some (st', g, k)
  end.

End Defaults.

End RepoOpt.

(** ** What the parts of [coverage] compute, said without loops *)

Module Spec.

Import Err Unit Graph Filepath Plan Cli.

(** The tree without its hidden directories, except the root. *)
Fixpoint prune (n : Node) : Node :=
  match n with
  | FileNode _ _ => n
  | DirNode name entries =>
      DirNode name
        ((fix pruneEntries (es : list Node) : list Node :=
            match es with
            | [] => []
            | e :: es' =>
                match e with
                | DirNode name' _ =>
                    if String.prefix "." name' then pruneEntries es'
                    else prune e :: pruneEntries es'
                | FileNode _ _ => e :: pruneEntries es'
                end
            end) entries)
  end.

(** Whether every file of the tree can be read. *)
Fixpoint readable (n : Node) : bool :=
  match n with
  | FileNode _ (inl _) => false
  | FileNode _ (inr _) => true
  | DirNode _ entries =>
      (fix readableEntries (es : list Node) : bool :=
         match es with
         | [] => true
         | e :: es' => readable e && readableEntries es'
         end) entries
  end.

(** A sum of [int]s. *)
Definition sumInt {A : Type} (f : A -> Z) (l : list A) : Z :=
  Int.wrap (foldr (fun x acc => f x + acc) 0 l).

(** A number of things as an [int]. *)
Definition countInt {A : Type} (l : list A) : Z :=
  Int.wrap (Z.of_nat (length l)).

(** The references the pointers lead to. *)
Definition deref (heap : list Ref) (ps : list nat) : list Ref :=
  omap (fun p => heap !! p) ps.

(** The test of the aggregator on a reference. *)
Definition validRef (keys : gset DefKey) (ref : Ref) : bool :=
  negb (bool_decide (DefRepo ref = "")) || bool_decide (Ref_DefKey ref ∈ keys).

(** The data of a file once [refs] and [defs] are folded into it: the
    references and the definitions of the file counted, the valid references
    among them counted. *)
Definition folded (keys : gset DefKey) (refs : list Ref) (defs : list Def)
    (file : string) (datum : codeFileDatum) : codeFileDatum :=
  let refsHere := List.filter (fun ref => String.eqb (File ref) file) refs in
  let defsHere := List.filter (fun def => String.eqb (DefFile def) file) defs in
  {| LoC := LoC datum;
     NumRefs := Int.wrap (NumRefs datum + Z.of_nat (length refsHere));
     NumDefs := Int.wrap (NumDefs datum + Z.of_nat (length defsHere));
     NumRefsValid :=
       Int.wrap (NumRefsValid datum
                 + Z.of_nat (length (List.filter (validRef keys) refsHere)));
     Language := Language datum |}.

(** The counters of a datum are Go [int]s. *)
Definition ints (datum : codeFileDatum) : Prop :=
  Int.InRange (NumRefs datum) /\ Int.InRange (NumDefs datum)
  /\ Int.InRange (NumRefsValid datum).

(** All references and all definitions of the loaded artifacts. *)
Definition allRefs (st : LoadState) : list Ref :=
  flat_map (fun item => deref (heap st) (iRefs item)) (data st).

Definition allDefs (st : LoadState) : list Def :=
  flat_map iDefs (data st).

(** The statistics of a language over the files [entries]. *)
Definition statsOf (entries : list (string * codeFileDatum)) (lang : string)
    : langStats :=
  let es := List.filter (fun e => String.eqb (Language e.2) lang) entries in
  {| numFiles := countInt es;
     numIndexedFiles := countInt (List.filter (fun e => fileCovered e.2) es);
     numDefs := sumInt (fun e => NumDefs e.2) es;
     numRefs := sumInt (fun e => NumRefs e.2) es;
     numRefsValid := sumInt (fun e => NumRefsValid e.2) es;
     uncoveredFiles :=
       map fst (List.filter (fun e => negb (fileCovered e.2)) es);
     loc := sumInt (fun e => LoC e.2) es |}.

(** What the closure [parseGraphData] takes from one artifact [t], a target
    with its unit: the references as they are after the call, the
    definitions, the keys, the warning, and whether it fails. *)
Definition loadedRefs (bdfs : FileSystem) (t : string * SourceUnit) : list Ref :=
  match readJSONFileFS bdfs t.1 with
  | inr v => normalized t.2 <$> Refs v
  | inl _ => []
  end.

Definition loadedDefs (bdfs : FileSystem) (t : string * SourceUnit) : list Def :=
  match readJSONFileFS bdfs t.1 with
  | inr v => Defs v
  | inl _ => []
  end.

Definition loadedKeys (bdfs : FileSystem) (t : string * SourceUnit)
    : list DefKey :=
  (fun def => adjustDefKey (Key def) t.2) <$> loadedDefs bdfs t.

Definition loadedLog (bdfs : FileSystem) (t : string * SourceUnit)
    : list string :=
  match readJSONFileFS bdfs t.1 with
  | inl err =>
      if decide (err = errEmptyJSONFile) then [warnEmpty t.2]
      else if IsNotExist err then [warnNoData t.2]
      else []
  | inr _ => []
  end.

Definition fatal (bdfs : FileSystem) (t : string * SourceUnit) : bool :=
  match readJSONFileFS bdfs t.1 with
  | inl err =>
      negb (bool_decide (err = errEmptyJSONFile)) && negb (IsNotExist err)
  | inr _ => false
  end.

(** The pointers of the loaded outputs lead into the store. *)
Definition bounded (st : LoadState) : Prop :=
  Forall (fun item => Forall (fun p => (p < length (heap st))%nat) (iRefs item))
         (data st).

End Spec.

(** * Properties *)

(** ** Integers and floating-point numbers *)

Section NumberFacts.

Import Int F64.

Lemma wrap_small z : InRange z -> wrap z = z.
Proof.
  unfold InRange, wrap. intros Hz.
  rewrite Z.mod_small by lia. lia.
Qed.

Lemma wrap_range z : InRange (wrap z).
Proof.
  unfold InRange, wrap.
  pose proof (Z.mod_pos_bound (z + 2 ^ 63) (2 ^ 64) ltac:(lia)). lia.
Qed.

Lemma of_int_0 : of_int 0 = zero.
Proof. reflexivity. Qed.

Lemma of_int_1 : of_int 1 = one.
Proof. reflexivity. Qed.

Lemma minus_one_of_int : of_int (-1) = minus_one.
Proof. reflexivity. Qed.

(** The literal [0.7] is the quotient of 7 by 10, correctly rounded. *)
Lemma lit_0_7_nearest : div (of_int 7) (of_int 10) = lit_0_7.
Proof. reflexivity. Qed.

Lemma div_zero_zero : div zero zero = S754_nan.
Proof. reflexivity. Qed.

Lemma div_finite_zero s m e : div (S754_finite s m e) zero = S754_infinity s.
Proof. unfold div, zero; simpl. by destruct s. Qed.

Lemma gt_nan_l y : gt S754_nan y = false.
Proof. unfold gt, SFltb. by destruct y. Qed.

End NumberFacts.

(** ** Converting a positive [int] to [float64] *)

Section ConversionFacts.

Import F64.

Lemma shr_1_m mrs : 0 <= shr_m mrs -> shr_m (shr_1 mrs) = shr_m mrs / 2.
Proof.
  destruct mrs as [m r s]. simpl.
  destruct m as [|[p|p|]|p]; simpl; intros H; try done.
  - apply Z.div_unique with 1; lia.
  - apply Z.div_unique with 0; lia.
Qed.

Lemma pow2_xI k : 2 ^ Zpos k~1 = 2 * 2 ^ Zpos k * 2 ^ Zpos k.
Proof.
  rewrite (Pos2Z.inj_xI k).
  replace (2 * Zpos k + 1) with (Z.succ (Zpos k + Zpos k)) by lia.
  rewrite Z.pow_succ_r, Z.pow_add_r by lia. lia.
Qed.

Lemma pow2_xO k : 2 ^ Zpos k~0 = 2 ^ Zpos k * 2 ^ Zpos k.
Proof.
  rewrite (Pos2Z.inj_xO k). replace (2 * Zpos k) with (Zpos k + Zpos k) by lia.
  by rewrite Z.pow_add_r by lia.
Qed.

Lemma iter_shr_m k mrs :
  0 <= shr_m mrs ->
  shr_m (SpecFloat.iter_pos shr_1 k mrs) = shr_m mrs / 2 ^ Zpos k.
Proof.
  revert mrs. induction k as [k IH|k IH|]; intros mrs H; simpl.
  - assert (H1 : 0 <= shr_m (shr_1 mrs)).
    { rewrite shr_1_m by done. apply Z.div_pos; lia. }
    assert (H2 : 0 <= shr_m (SpecFloat.iter_pos shr_1 k (shr_1 mrs))).
    { rewrite IH by done. apply Z.div_pos; lia. }
    rewrite IH, IH, shr_1_m by done.
    rewrite !Z.div_div by lia. f_equal. rewrite pow2_xI. lia.
  - assert (H2 : 0 <= shr_m (SpecFloat.iter_pos shr_1 k mrs)).
    { rewrite IH by done. apply Z.div_pos; lia. }
    rewrite IH, IH by done.
    rewrite !Z.div_div by lia. f_equal. rewrite pow2_xO. lia.
  - by apply shr_1_m.
Qed.

Lemma digits2_bounds p :
  2 ^ (Zpos (digits2_pos p) - 1) <= Zpos p < 2 ^ Zpos (digits2_pos p).
Proof.
  induction p as [p IH|p IH|]; simpl; [| |lia].
  - rewrite Pos2Z.inj_succ, (Pos2Z.inj_xI p).
    replace (Z.succ (Zpos (digits2_pos p)) - 1)
      with (Z.succ (Zpos (digits2_pos p) - 1)) by lia.
    rewrite !Z.pow_succ_r by lia. lia.
  - rewrite Pos2Z.inj_succ, (Pos2Z.inj_xO p).
    replace (Z.succ (Zpos (digits2_pos p)) - 1)
      with (Z.succ (Zpos (digits2_pos p) - 1)) by lia.
    rewrite !Z.pow_succ_r by lia. lia.
Qed.

(** Above the smallest exponent the shift that rounds a positive mantissa
    to 53 bits leaves it positive. *)
Lemma shr_fexp_pos p e l :
  emin 53 1024 <= e ->
  0 < shr_m (shr_fexp 53 1024 (Zpos p) e l).1 /\
  e <= (shr_fexp 53 1024 (Zpos p) e l).2.
Proof.
  intros He. unfold shr_fexp, shr, fexp, emin in *. simpl Zdigits2.
  pose proof (digits2_bounds p) as [Hlo _].
  assert (Hm : shr_m (shr_record_of_loc (Zpos p) l) = Zpos p).
  { by destruct l as [|[]]. }
  destruct (Z.max (Zpos (digits2_pos p) + e - 53) (3 - 1024 - 53) - e)
    as [|k|k] eqn:Ek; simpl; rewrite ?Hm; try lia.
  rewrite iter_shr_m, Hm by (rewrite Hm; lia). split; [|lia].
  apply Z.div_str_pos. split; [lia|].
  etransitivity; [|exact Hlo]. apply Z.pow_le_mono_r; lia.
Qed.

Lemma round_nearest_even_pos m l : 0 < m -> 0 < round_nearest_even m l.
Proof.
  intros H. unfold round_nearest_even.
  destruct l as [|[]]; try lia. destruct (Z.even m); lia.
Qed.

Lemma binary_round_aux_pos s p e l :
  emin 53 1024 <= e ->
  match binary_round_aux 53 1024 s (Zpos p) e l with
  | S754_finite s' _ _ | S754_infinity s' => s' = s
  | _ => False
  end.
Proof.
  intros He. unfold binary_round_aux.
  pose proof (shr_fexp_pos p e l He) as [Hm1 He1].
  destruct (shr_fexp 53 1024 (Zpos p) e l) as [mrs' e'].
  simpl in Hm1, He1.
  pose proof (round_nearest_even_pos (shr_m mrs') (loc_of_shr_record mrs') Hm1)
    as Hr.
  destruct (round_nearest_even (shr_m mrs') (loc_of_shr_record mrs'))
    as [|q|q]; try lia.
  pose proof (shr_fexp_pos q e' loc_Exact ltac:(lia)) as [Hm2 _].
  destruct (shr_fexp 53 1024 (Zpos q) e' loc_Exact) as [mrs'' e''].
  simpl in Hm2. destruct (shr_m mrs''); try lia.
  by destruct (e'' <=? 1024 - 53).
Qed.

(** The conversion of a positive integer is positive: a finite number or
    plus infinity, never zero and never NaN. *)
Lemma of_int_pos n :
  0 < n ->
  match of_int n with
  | S754_finite s _ _ | S754_infinity s => s = false
  | _ => False
  end.
Proof.
  intros Hn. destruct n as [|p|p]; try lia.
  unfold of_int, binary_normalize, binary_round, shl_align.
  set (e' := fexp 53 1024 (Zpos (digits2_pos p) + 0)).
  assert (He' : emin 53 1024 <= e') by (unfold e', fexp; lia).
  destruct (e' - 0) eqn:E; apply binary_round_aux_pos; unfold emin in *; lia.
Qed.

Lemma div_pos_zero n : 0 < n -> div (of_int n) (of_int 0) = pos_inf.
Proof.
  intros Hn. pose proof (of_int_pos n Hn) as H.
  destruct (of_int n) as [| | |s m e]; try done; by subst.
Qed.

End ConversionFacts.


(** ** The scanner *)

Section ScannerFacts.

Import Scanner.
Local Open Scope nat_scope.

Lemma run_le {St : Type} (step : St -> byte -> stepResult St) st l :
  run step st l <= length l.
Proof.
  revert st. induction l as [|ch r IH]; intros st; simpl; [lia|].
  destruct (step st ch); [specialize (IH st0)|..]; lia.
Qed.

(** A token that ends before the end of the input does not depend on what
    follows it, provided its loop never leaves the last byte unread. *)
Lemma run_local {St : Type} (step : St -> byte -> stepResult St) st l r' :
  (forall st ch, step st ch <> StopBefore) ->
  run step st l < length l ->
  run step st (firstn (run step st l) l ++ r') = run step st l.
Proof.
  intros Hstep. revert st. induction l as [|ch r IH]; intros st; simpl; [lia|].
  destruct (step st ch) eqn:E; simpl.
  - rewrite E. intros H. rewrite IH by lia. reflexivity.
  - rewrite E. reflexivity.
  - by destruct (Hstep st ch).
Qed.

Lemma strStep_not_before quote st ch : strStep quote st ch <> StopBefore.
Proof.
  assert (Hp : plainStep quote ch <> StopBefore).
  { unfold plainStep. by repeat case_match. }
  destruct st as [| |base [|n]]; simpl; try done.
  - destruct (Byte.eqb ch quote); [done|]. by destruct ch.
  - by case_match.
Qed.

Lemma rawStep_not_before st ch : rawStep st ch <> StopBefore.
Proof. unfold rawStep. by case_match. Qed.

Lemma skipWhitespace_le l : skipWhitespace l <= length l.
Proof. induction l as [|ch r IH]; simpl; [lia|]. case_match; lia. Qed.

Lemma skipWhitespace_all l :
  Forall (fun ch => isWhitespace ch = true) (firstn (skipWhitespace l) l).
Proof.
  induction l as [|ch r IH]; simpl; [constructor|].
  destruct (isWhitespace ch) eqn:E; simpl; by constructor.
Qed.

Lemma skipWhitespace_app ws l :
  Forall (fun ch => isWhitespace ch = true) ws ->
  skipWhitespace (ws ++ l) = length ws + skipWhitespace l.
Proof.
  induction 1 as [|ch ws Hch _ IH]; simpl; [done|]. by rewrite Hch, IH.
Qed.

(** After the white space comes a byte that is not white space, or the
    end. *)
Lemma skipWhitespace_stop l ch r :
  skipn (skipWhitespace l) l = ch :: r -> isWhitespace ch = false.
Proof.
  induction l as [|c l IH]; simpl; [done|].
  destruct (isWhitespace c) eqn:E; simpl; [done|].
  by intros [= -> _].
Qed.

Lemma skipWhitespace_head ch r :
  isWhitespace ch = false -> skipWhitespace (ch :: r) = 0.
Proof. simpl. by intros ->. Qed.

Lemma scanToken_le l tok n : scanToken l = (tok, n) -> n <= length l.
Proof.
  unfold scanToken, scanString, scanRawString, scanComment.
  destruct l as [|ch r]; [by intros [= <- <-]|].
  repeat case_match; intros [= <- <-]; subst; simpl;
    try lia;
    match goal with
    | |- context [run ?f ?s ?x] => pose proof (run_le f s x); simpl in *; lia
    end.
Qed.

Lemma scanToken_pos l tok n :
  scanToken l = (tok, n) -> isEOF tok = false -> 1 <= n.
Proof.
  unfold scanToken. destruct l as [|ch r]; [by intros [= <- <-]|].
  repeat case_match; intros [= <- <-] _; lia.
Qed.

Lemma scanToken_EOF l tok n :
  scanToken l = (tok, n) -> isEOF tok = true -> l = [] /\ n = 0.
Proof.
  unfold scanToken. destruct l as [|ch r]; [by intros [= <- <-]|].
  repeat case_match; by intros [= <- <-].
Qed.

Lemma scanAt_le l tok w n : scanAt l = (tok, w, n) -> w + n <= length l.
Proof.
  unfold scanAt. destruct (scanToken _) as [tok' n'] eqn:E.
  intros [= <- <- <-]. pose proof (scanToken_le _ _ _ E) as Hle.
  rewrite length_drop in Hle. pose proof (skipWhitespace_le l). lia.
Qed.

Lemma scanAt_pos l tok w n :
  scanAt l = (tok, w, n) -> isEOF tok = false -> 1 <= n.
Proof.
  unfold scanAt. destruct (scanToken _) as [tok' n'] eqn:E.
  intros [= <- <- <-]. by apply (scanToken_pos _ _ _ E).
Qed.

Lemma scanAt_EOF l tok w n :
  scanAt l = (tok, w, n) -> isEOF tok = true -> w = length l /\ n = 0.
Proof.
  unfold scanAt. destruct (scanToken _) as [tok' n'] eqn:E.
  intros [= <- <- <-] H. destruct (scanToken_EOF _ _ _ E H) as [Hnil ->].
  split; [|done].
  apply (f_equal (@length byte)) in Hnil. rewrite length_drop in Hnil.
  simpl in Hnil. pose proof (skipWhitespace_le l). lia.
Qed.

Lemma scanAt_ws l tok w n :
  scanAt l = (tok, w, n) ->
  Forall (fun ch => isWhitespace ch = true) (firstn w l).
Proof.
  unfold scanAt. destruct (scanToken _) as [tok' n'].
  intros [= <- <- <-]. apply skipWhitespace_all.
Qed.

Lemma scanAt_token l tok w n :
  scanAt l = (tok, w, n) -> scanToken (skipn w l) = (tok, n).
Proof.
  unfold scanAt. destruct (scanToken _) as [tok' n'] eqn:E.
  by intros [= <- <- <-].
Qed.

(** White space before the input moves the token and nothing else. *)
Lemma scanAt_app_ws ws l tok w n :
  Forall (fun ch => isWhitespace ch = true) ws ->
  scanAt l = (tok, w, n) ->
  scanAt (ws ++ l) = (tok, length ws + w, n).
Proof.
  intros Hws. unfold scanAt. rewrite skipWhitespace_app by done.
  rewrite drop_app_add.
  destruct (scanToken _) as [tok' n']. by intros [= <- <- <-].
Qed.

(** At a byte that is not white space [Scan] skips nothing. *)
Lemma scanAt_start ch r :
  isWhitespace ch = false ->
  scanAt (ch :: r) = let '(tok, n) := scanToken (ch :: r) in (tok, 0, n).
Proof. intros H. unfold scanAt. rewrite skipWhitespace_head by done. done. Qed.

End ScannerFacts.

(** ** Comment stripping *)

Section StripFacts.

Import Scanner Cli.
Local Open Scope nat_scope.

(** More fuel than bytes is enough: the result no longer depends on it. *)
Lemma stripFrom_stable f1 f2 l :
  length l < f1 -> length l < f2 -> stripFrom f1 l = stripFrom f2 l.
Proof.
  revert f2 l. induction f1 as [|f1 IH]; intros f2 l H1 H2; [lia|].
  destruct f2 as [|f2]; [lia|]. simpl.
  destruct (scanAt l) as [[tok w] n] eqn:E.
  destruct (isEOF tok) eqn:Etok; [done|]. f_equal.
  pose proof (scanAt_le _ _ _ _ E). pose proof (scanAt_pos _ _ _ _ E Etok).
  apply IH; rewrite length_drop; lia.
Qed.

Lemma strip_eq l :
  strip l =
    let '(tok, w, n) := scanAt l in
    if isEOF tok then l
    else (if isComment tok then firstn w l else firstn (w + n) l)
           ++ strip (skipn (w + n) l).
Proof.
  unfold strip at 1. simpl.
  destruct (scanAt l) as [[tok w] n] eqn:E.
  destruct (isEOF tok) eqn:Etok; [done|]. f_equal.
  pose proof (scanAt_le _ _ _ _ E). pose proof (scanAt_pos _ _ _ _ E Etok).
  apply stripFrom_stable; rewrite length_drop; lia.
Qed.

(** The loop of [stripComments], started at [offset] with the scanner
    there, appends to [ret] the stripped rest of the data. *)
Lemma stripLoop_stripFrom fuel data s offset ret :
  src s = data -> srcPos s = offset ->
  stripLoop fuel data s offset ret = ret ++ stripFrom fuel (skipn offset data).
Proof.
  revert s offset ret.
  induction fuel as [|fuel IH]; intros s offset ret Hsrc Hpos; [done|].
  simpl. unfold Scan. rewrite Hsrc, Hpos.
  destruct (scanAt (drop offset data)) as [[tok w] n] eqn:E.
  destruct (isEOF tok) eqn:Etok; [done|].
  pose proof (scanAt_le _ _ _ _ E) as Hle. rewrite length_drop in Hle.
  rewrite IH by done.
  unfold PosOffset, TokenText, Bytes.slice; simpl.
  rewrite length_take, length_drop, drop_drop.
  replace (offset + w + n - (offset + w)) with n by lia.
  replace (offset + w + n - n `min` (length data - (offset + w)) - offset)
    with w by lia.
  replace (offset + w + n - offset) with (w + n) by lia.
  replace (offset + (w + n)) with (offset + w + n) by lia.
  destruct (isComment tok); by rewrite <- app_assoc.
Qed.

Lemma stripComments_strip data : stripComments data = strip data.
Proof.
  unfold stripComments. by rewrite stripLoop_stripFrom.
Qed.

(** The fuel [stripComments] gives its loop is enough: more of it changes
    nothing. *)
Lemma stripComments_fuel data fuel :
  length data < fuel ->
  stripLoop fuel data (Init data) 0 [] = stripComments data.
Proof.
  intros H. unfold stripComments. rewrite !stripLoop_stripFrom by done.
  rewrite drop_0. apply stripFrom_stable; lia.
Qed.

Lemma strip_nil : strip [] = [].
Proof. reflexivity. Qed.

(** Leading white space is kept as it is. *)
Lemma strip_ws ws l :
  Forall (fun ch => isWhitespace ch = true) ws ->
  strip (ws ++ l) = ws ++ strip l.
Proof.
  intros Hws. rewrite (strip_eq (ws ++ l)), (strip_eq l).
  destruct (scanAt l) as [[tok w] n] eqn:E.
  rewrite (scanAt_app_ws _ _ _ _ _ Hws E).
  destruct (isEOF tok); [done|].
  rewrite <- Nat.add_assoc, drop_app_add, !take_app_add.
  destruct (isComment tok); by rewrite <- app_assoc.
Qed.

(** A token that is kept: the stripper copies it and goes on behind it. *)
Lemma strip_keep ch r tok n :
  isWhitespace ch = false ->
  scanToken (ch :: r) = (tok, n) ->
  isComment tok = false ->
  strip (ch :: r) = firstn n (ch :: r) ++ strip (skipn n (ch :: r)).
Proof.
  intros Hch E Hc. rewrite strip_eq, scanAt_start, E by done.
  rewrite Hc. destruct (isEOF tok) eqn:Etok; [|done].
  by destruct (scanToken_EOF _ _ _ E Etok).
Qed.

(** What the stripped text starts with: the first byte of the text, unless
    that byte is a slash. *)
Lemma strip_head ch r :
  ch <> "/"%byte -> exists s, strip (ch :: r) = ch :: s.
Proof.
  intros Hch. destruct (isWhitespace ch) eqn:Ews.
  - exists (strip r). apply (strip_ws [ch] r). by repeat constructor.
  - destruct (scanToken (ch :: r)) as [tok n] eqn:E.
    assert (isComment tok = false /\ 1 <= n) as [Hc Hn].
    { revert E. unfold scanToken.
      destruct (Byte.eqb ch "/") eqn:Es; [by apply byte_dec_bl in Es|].
      repeat case_match; intros [= <- <-]; split; simpl; lia || done. }
    rewrite (strip_keep _ _ _ _ Ews E Hc).
    destruct n as [|n]; [lia|]. simpl. eauto.
Qed.

End StripFacts.

Section StripIdempotent.

Import Scanner Cli.
Local Open Scope nat_scope.

Lemma scanAt_inv l tok w n :
  scanAt l = (tok, w, n) ->
  w = skipWhitespace l /\ scanToken (skipn w l) = (tok, n).
Proof.
  unfold scanAt. destruct (scanToken _) as [tok' n'] eqn:E.
  by intros [= <- <- <-].
Qed.

(** A literal that is scanned on the text is scanned the same on its own
    bytes followed by anything else, unless it ran into the end. *)
Lemma literal_relocate {St : Type} (step : St -> byte -> stepResult St) st r r' :
  (forall st ch, step st ch <> StopBefore) ->
  (skipn (run step st r) r = [] -> r' = []) ->
  run step st (firstn (run step st r) r ++ r') = run step st r.
Proof.
  intros Hstep Hend. pose proof (run_le step st r) as Hle.
  destruct (decide (run step st r < length r)) as [Hlt|Hge].
  - by apply run_local.
  - rewrite Hend by (apply drop_ge; lia).
    by rewrite app_nil_r, take_ge by lia.
Qed.

(** A token that is kept is scanned again as the same token when the text
    behind it is replaced by a text that ends where it ends and starts as it
    starts. *)
Lemma scanToken_relocate ch r tok n r' :
  scanToken (ch :: r) = (tok, n) ->
  isComment tok = false ->
  (skipn n (ch :: r) = [] -> r' = []) ->
  (forall c x, skipn n (ch :: r) = c :: x -> c <> "/"%byte ->
               exists y, r' = c :: y) ->
  scanToken (firstn n (ch :: r) ++ r') = (tok, n).
Proof.
  unfold scanToken at 1.
  destruct (Byte.eqb ch x22) eqn:E1;
    [|destruct (Byte.eqb ch "'") eqn:E2;
      [|destruct (Byte.eqb ch "`") eqn:E3;
        [|destruct (Byte.eqb ch "/") eqn:E4]]].
  - intros [= <- <-] _ Hend _. simpl. rewrite E1. do 2 f_equal.
    unfold scanString in *. apply literal_relocate; [|done].
    apply strStep_not_before.
  - intros [= <- <-] _ Hend _. simpl. rewrite E1, E2. do 2 f_equal.
    unfold scanString in *. apply literal_relocate; [|done].
    apply strStep_not_before.
  - intros [= <- <-] _ Hend _. simpl. rewrite E1, E2, E3. do 2 f_equal.
    unfold scanRawString in *. apply literal_relocate; [|done].
    apply rawStep_not_before.
  - destruct r as [|ch' r0].
    + intros [= <- <-] _ Hend _. simpl in *.
      rewrite (Hend eq_refl). by rewrite E1, E2, E3, E4.
    + destruct (Byte.eqb ch' "/" || Byte.eqb ch' "*") eqn:E5;
        [by intros [= <- <-]|].
      intros [= <- <-] _ _ Hhead. simpl in *.
      destruct (Hhead ch' r0 eq_refl) as [y ->].
      { intros ->. by rewrite (byte_dec_lb eq_refl) in E5. }
      by rewrite E1, E2, E3, E4, E5.
  - intros [= <- <-] _ _ _. simpl. by rewrite E1, E2, E3, E4.
Qed.

Lemma strip_idempotent_upto k l :
  length l < k -> strip (strip l) = strip l.
Proof.
  revert l. induction k as [|k IH]; intros l Hk; [lia|].
  pose proof (strip_eq l) as Hl.
  destruct (scanAt l) as [[tok w] n] eqn:E.
  destruct (isEOF tok) eqn:Etok.
  { rewrite Hl. exact Hl. }
  pose proof (scanAt_le _ _ _ _ E) as Hle.
  pose proof (scanAt_pos _ _ _ _ E Etok) as Hpos.
  pose proof (scanAt_ws _ _ _ _ E) as Hws.
  assert (Hrest : strip (strip (drop (w + n) l)) = strip (drop (w + n) l)).
  { apply IH. rewrite length_drop. lia. }
  destruct (isComment tok) eqn:Ec.
  { rewrite Hl, strip_ws by done. by rewrite Hrest. }
  destruct (scanAt_inv _ _ _ _ E) as [Hw Htok].
  destruct (drop w l) as [|ch r] eqn:Em.
  { apply scanToken_EOF in Htok as [_ ->]; [lia|].
    by destruct tok. }
  assert (Hch : isWhitespace ch = false).
  { apply (skipWhitespace_stop l ch r). by rewrite <- Hw. }
  rewrite <- take_take_drop, <- drop_drop, Em in Hl.
  rewrite <- drop_drop, Em in Hrest.
  set (r' := strip (drop n (ch :: r))) in *.
  assert (Hre : scanToken (take n (ch :: r) ++ r') = (tok, n)).
  { apply scanToken_relocate; [done|done| |].
    - intros Hnil. subst r'. by rewrite Hnil.
    - intros c x Hcx Hc. subst r'. rewrite Hcx. by apply strip_head. }
  assert (Hlen : length (take n (ch :: r)) = n).
  { rewrite length_take. apply (f_equal (@length byte)) in Em.
    rewrite length_drop in Em. lia. }
  rewrite Hl, <- app_assoc, strip_ws by done. f_equal.
  destruct n as [|n]; [lia|]. simpl in Hre |- *.
  rewrite (strip_keep _ _ _ _ Hch Hre Ec). simpl.
  rewrite take_app_length', drop_app_length' by (simpl in Hlen; lia).
  by rewrite Hrest.
Qed.

Lemma strip_idempotent l : strip (strip l) = strip l.
Proof. apply (strip_idempotent_upto (S (length l))). lia. Qed.

End StripIdempotent.

(** ** Grouping identifiers and numbers *)

Section GroupingFacts.

Import Scanner Cli.
Local Open Scope nat_scope.

Lemma inert_scanToken ch r :
  inert ch = true -> scanToken (ch :: r) = (Other ch, 1).
Proof.
  unfold inert, scanToken. intros H.
  repeat (apply andb_prop in H as [H ?]).
  repeat match goal with
         | H : negb _ = true |- _ => apply negb_true_iff in H
         end.
  destruct (Byte.eqb ch x22), (Byte.eqb ch "'"), (Byte.eqb ch "`"),
    (Byte.eqb ch "/"); done.
Qed.

Lemma inert_not_whitespace ch : inert ch = true -> isWhitespace ch = false.
Proof.
  unfold inert. intros H. repeat (apply andb_prop in H as [H ?]).
  by apply negb_true_iff in H.
Qed.

(** The stripper copies inert bytes one by one. *)
Lemma strip_inert t r :
  Forall (fun ch => inert ch = true) t -> strip (t ++ r) = t ++ strip r.
Proof.
  induction 1 as [|ch t Hch _ IH]; simpl; [done|].
  rewrite (strip_keep ch (t ++ r) (Other ch) 1);
    [|by apply inert_not_whitespace|by apply inert_scanToken|done].
  change (firstn 1 (ch :: t ++ r)) with [ch].
  change (skipn 1 (ch :: t ++ r)) with (t ++ r).
  by rewrite IH.
Qed.

(** Whatever bytes of identifiers and numbers the scanner groups into one
    token, the stripped text is the same. *)
Theorem stripFromG_strip (group : list byte -> option (Token * nat)) :
  (forall l tok n, group l = Some (tok, n) ->
     1 <= n <= length l /\ isEOF tok = false /\ isComment tok = false /\
     Forall (fun ch => inert ch = true) (firstn n l)) ->
  forall fuel l, length l < fuel -> stripFromG group fuel l = strip l.
Proof.
  intros Hgroup. induction fuel as [|fuel IH]; intros l Hfuel; [lia|].
  simpl. unfold scanAtG, scanTokenG.
  pose proof (skipWhitespace_le l) as Hw.
  pose proof (skipWhitespace_all l) as Hws.
  set (w := skipWhitespace l) in *.
  destruct (group (drop w l)) as [[tok n]|] eqn:Eg.
  - destruct (Hgroup _ _ _ Eg) as ([Hn1 Hn2] & -> & -> & Hin).
    rewrite length_drop in Hn2.
    rewrite IH by (rewrite length_drop; lia).
    transitivity (strip (take w l ++ take n (drop w l) ++ drop n (drop w l))).
    + rewrite strip_ws, strip_inert by done.
      by rewrite <- take_take_drop, drop_drop, <- app_assoc.
    + by rewrite !take_drop.
  - rewrite (strip_eq l). unfold scanAt. fold w.
    destruct (scanToken (drop w l)) as [tok n] eqn:Et.
    destruct (isEOF tok) eqn:Etok; [done|].
    pose proof (scanToken_le _ _ _ Et) as Hle. rewrite length_drop in Hle.
    pose proof (scanToken_pos _ _ _ Et Etok).
    by rewrite IH by (rewrite length_drop; lia).
Qed.

Lemma spanLen_le p l : spanLen p l <= length l.
Proof. induction l as [|ch r IH]; simpl; [lia|]. destruct (p ch); lia. Qed.

Lemma spanLen_all p l : Forall (fun ch => p ch = true) (firstn (spanLen p l) l).
Proof.
  induction l as [|ch r IH]; simpl; [constructor|].
  destruct (p ch) eqn:E; simpl; by constructor.
Qed.

Lemma isLetter_inert ch : isLetter ch = true -> inert ch = true.
Proof. by destruct ch. Qed.

Lemma isDecimal_inert ch : isDecimal ch = true -> inert ch = true.
Proof. by destruct ch. Qed.

(** The grouping [asciiWords] is one the theorem speaks of. *)
Lemma asciiWords_inert l tok n :
  asciiWords l = Some (tok, n) ->
  1 <= n <= length l /\ isEOF tok = false /\ isComment tok = false /\
  Forall (fun ch => inert ch = true) (firstn n l).
Proof.
  destruct l as [|ch r]; [done|]. unfold asciiWords.
  destruct (isLetter ch) eqn:El; [|destruct (isDecimal ch) eqn:Ed; [|done]];
    intros [= <- <-]; simpl.
  - pose proof (spanLen_le (fun c => isLetter c || isDecimal c) r).
    repeat split; try lia. constructor; [by apply isLetter_inert|].
    eapply Forall_impl; [apply spanLen_all|]. simpl.
    intros c [Hc|Hc]%orb_prop; [by apply isLetter_inert|by apply isDecimal_inert].
  - pose proof (spanLen_le isDecimal r).
    repeat split; try lia. constructor; [by apply isDecimal_inert|].
    eapply Forall_impl; [apply spanLen_all|]. apply isDecimal_inert.
Qed.

Lemma stripFromG_asciiWords l :
  stripFromG asciiWords (S (length l)) l = stripComments l.
Proof.
  rewrite stripComments_strip.
  apply (stripFromG_strip asciiWords asciiWords_inert). lia.
Qed.

End GroupingFacts.

Section CountFacts.

Import Cli Fixture.

Lemma IndexByte_range l c : -1 <= Bytes.IndexByte l c < Z.of_nat (length l).
Proof.
  induction l as [|x r IH]; simpl; [lia|].
  destruct (Byte.eqb x c); [lia|].
  destruct (Z.eqb_spec (Bytes.IndexByte r c) (-1)); lia.
Qed.

Lemma isNotBlank_app l1 l2 :
  isNotBlank (l1 ++ l2) = isNotBlank l1 || isNotBlank l2.
Proof.
  induction l1 as [|x l1 IH]; simpl; [done|].
  by destruct (Bytes.IsSpace x).
Qed.

(** Without a new line there is no terminated line. *)
Lemma terminatedLines_none l seen :
  Bytes.IndexByte l x0a = -1 -> terminatedLines l seen = 0.
Proof.
  revert seen. induction l as [|x r IH]; intros seen; simpl; [done|].
  destruct (Byte.eqb x x0a); [done|].
  destruct (Z.eqb_spec (Bytes.IndexByte r x0a) (-1)) as [E|E]; [auto|].
  pose proof (IndexByte_range r x0a). lia.
Qed.

(** With a new line at [pos], the first line counts if it is not blank,
    and the count goes on behind it. *)
Lemma terminatedLines_line l seen (pos : Z) :
  Bytes.IndexByte l x0a = pos -> 0 <= pos ->
  terminatedLines l seen =
    (if seen || isNotBlank (firstn (Z.to_nat (pos + 1)) l) then 1 else 0)
    + terminatedLines (skipn (Z.to_nat (pos + 1)) l) false.
Proof.
  revert seen pos. induction l as [|x r IH]; intros seen pos; simpl; [lia|].
  destruct (Byte.eqb x x0a) eqn:Ex.
  - intros <- _. simpl. apply byte_dec_bl in Ex as ->. simpl.
    by rewrite orb_false_r.
  - destruct (Z.eqb_spec (Bytes.IndexByte r x0a) (-1)) as [E|E]; [lia|].
    intros <- Hpos. pose proof (IndexByte_range r x0a) as Hr.
    replace (Z.to_nat (Bytes.IndexByte r x0a + 1 + 1))
      with (S (Z.to_nat (Bytes.IndexByte r x0a + 1))) by lia.
    simpl. rewrite (IH _ _ eq_refl) by lia.
    by destruct (Bytes.IsSpace x), seen.
Qed.

(** The loop of [numLines] adds to [count] the terminated lines of the
    text from [start] on that are not blank. *)
Lemma numLinesLoop_spec fuel data (count start : Z) :
  Z.of_nat (length data) < 2 ^ 62 ->
  0 <= start <= Z.of_nat (length data) ->
  0 <= count <= start + 1 ->
  (length data - Z.to_nat start < fuel)%nat ->
  numLinesLoop fuel data (Z.of_nat (length data)) count start
      (Bytes.IndexByte (skipn (Z.to_nat start) data) x0a)
    = count + terminatedLines (skipn (Z.to_nat start) data) false.
Proof.
  intros Hlen. revert count start.
  induction fuel as [|fuel IH]; intros count start Hstart Hcount Hfuel; [lia|].
  simpl.
  set (rest := skipn (Z.to_nat start) data).
  pose proof (IndexByte_range rest x0a) as Hpos.
  assert (Hrest : Z.of_nat (length rest) = Z.of_nat (length data) - start).
  { unfold rest. rewrite length_drop. lia. }
  destruct (Z.eqb_spec (Bytes.IndexByte rest x0a) (-1)) as [E|E]; simpl.
  { rewrite terminatedLines_none by done. lia. }
  destruct (Z.ltb_spec start (Z.of_nat (length data))) as [Hlt|Hge]; [|lia].
  set (pos := Bytes.IndexByte rest x0a) in *.
  rewrite (terminatedLines_line rest false pos) by (done || lia).
  unfold Int.add, Int.incr, Int.add.
  rewrite (wrap_small (pos + 1)), (wrap_small (start + (pos + 1))),
    (wrap_small (start + pos)), (wrap_small (start + pos + 1)),
    (wrap_small (count + 1)) by (unfold Int.InRange; lia).
  unfold Bytes.slice. fold rest.
  replace (Z.to_nat (start + pos + 1) - Z.to_nat start)%nat
    with (Z.to_nat (pos + 1)) by lia.
  replace (skipn (Z.to_nat (pos + 1)) rest)
    with (skipn (Z.to_nat (start + (pos + 1))) data)
    by (unfold rest; rewrite drop_drop; f_equal; lia).
  simpl. destruct (isNotBlank (take (Z.to_nat (pos + 1)) rest));
    rewrite IH by lia; lia.
Qed.

End CountFacts.

Section CountSpec.

Import Cli Fixture.

(** What [numLines] computes: nothing for an empty stripped text, else one
    more than the number of terminated lines that are not blank. *)
Lemma numLines_count (data : list byte) :
  Z.of_nat (length (stripComments data)) < 2 ^ 62 ->
  numLines data =
    match stripComments data with
    | [] => 0
    | _ :: _ => 1 + terminatedLines (stripComments data) false
    end.
Proof.
  intros Hlen. unfold numLines.
  destruct (stripComments data) as [|ch r] eqn:E; [done|].
  assert (Hpos : (0 < length (ch :: r))%nat) by (simpl; lia).
  revert Hlen Hpos. generalize (ch :: r). clear. intros d Hlen Hpos.
  destruct (Z.eqb_spec (Z.of_nat (length d)) 0) as [H0|_]; [lia|].
  apply (numLinesLoop_spec _ d 1 0); simpl; lia.
Qed.

Lemma segmentsNotBlank_split l seen :
  segmentsNotBlank l seen =
    terminatedLines l seen + (if lastSegmentBlank l seen then 0 else 1).
Proof.
  revert seen. induction l as [|ch r IH]; intros seen; simpl.
  - by destruct seen.
  - destruct (Byte.eqb ch x0a); rewrite IH; lia.
Qed.

(** [numLines] against the count of the specification: it is one too many
    exactly when the stripped text is not empty and what follows its last new
    line is blank, as it is in every text that ends in a new line. *)
Lemma numLines_vs_segments (data : list byte) :
  Z.of_nat (length (stripComments data)) < 2 ^ 62 ->
  numLines data =
    segmentsNotBlank (stripComments data) false
    + match stripComments data with
      | [] => 0
      | _ :: _ => if lastSegmentBlank (stripComments data) false then 1 else 0
      end.
Proof.
  intros Hlen. rewrite numLines_count, segmentsNotBlank_split by done.
  destruct (stripComments data) as [|ch r] eqn:E; [done|].
  destruct (lastSegmentBlank (ch :: r) false); lia.
Qed.

End CountSpec.

(** ** Line counting *)

Section LineFacts.

Import Cli Fixture.

(** C9: comment stripping is idempotent, a second pass over stripped text
    changes nothing, and with it the line count of stripped text is the line
    count of the text.  Both are functions of the bytes alone, so every
    evaluation gives the same value. *)
Theorem stripComments_idempotent (x : list byte) :
  stripComments (stripComments x) = stripComments x /\
  numLines (stripComments x) = numLines x.
Proof.
  assert (H : stripComments (stripComments x) = stripComments x).
  { rewrite !stripComments_strip. apply strip_idempotent. }
  split; [exact H|]. unfold numLines. by rewrite H.
Qed.

(** C2, at the input ["x\n"]: the text has one line, which is not blank and
    ends in a new line, and nothing after it; [numLines] answers 2.  At the
    input ["\n"], a single blank line, it answers 1. *)
Theorem numLines_trailing_newline :
  stripComments (bytes ("x" ++ nl)) = bytes ("x" ++ nl) /\
  numLines (bytes ("x" ++ nl)) = 2 /\
  numLines (bytes nl) = 1.
Proof. by vm_compute. Qed.

End LineFacts.

(** ** Key normalization *)

Section KeyFacts.

Import Unit Graph Cli Fixture.

(** What [adjustDefKey] does to each field. *)
Lemma adjustDefKey_fields (k : DefKey) (u : SourceUnit) :
  adjustDefKey k u =
    {| Repo := "";
       UnitType := if decide (UnitType k = "") then Type_ u else UnitType k;
       Unit := if decide (Graph.Unit k = "") then Name u else Graph.Unit k;
       Path := Path k |}.
Proof.
  unfold adjustDefKey; simpl. by repeat case_decide.
Qed.

(** C7: key normalization clears the repository, puts the type of the
    owning unit where the key leaves the unit type empty and the name of the
    owning unit where the key leaves the unit name empty, and keeps every
    other field as it is.  Hence two keys are normalized to different keys
    as soon as both leave the unit type empty and their units differ in
    type, or both leave the unit name empty and their units differ in name;
    in particular the keys of two definitions that leave both empty, for two
    units that differ in type or in name. *)
Theorem adjustDefKey_distinct_units (k1 k2 : DefKey) (u1 u2 : SourceUnit) :
  adjustDefKey k1 u1 =
    {| Repo := "";
       UnitType := if decide (UnitType k1 = "") then Type_ u1 else UnitType k1;
       Unit := if decide (Graph.Unit k1 = "") then Name u1 else Graph.Unit k1;
       Path := Path k1 |} /\
  (UnitType k1 = "" /\ UnitType k2 = "" /\ Type_ u1 <> Type_ u2 \/
   Graph.Unit k1 = "" /\ Graph.Unit k2 = "" /\ Name u1 <> Name u2 ->
   adjustDefKey k1 u1 <> adjustDefKey k2 u2) /\
  (UnitType k1 = "" -> Graph.Unit k1 = "" ->
   UnitType k2 = "" -> Graph.Unit k2 = "" ->
   Type_ u1 <> Type_ u2 \/ Name u1 <> Name u2 ->
   adjustDefKey k1 u1 =
     {| Repo := ""; UnitType := Type_ u1; Unit := Name u1; Path := Path k1 |} /\
   adjustDefKey k2 u2 =
     {| Repo := ""; UnitType := Type_ u2; Unit := Name u2; Path := Path k2 |} /\
   adjustDefKey k1 u1 <> adjustDefKey k2 u2).
Proof.
  split; [apply adjustDefKey_fields|]. split.
  - rewrite !adjustDefKey_fields.
    intros [(Ht1 & Ht2 & Hne)|(Hu1 & Hu2 & Hne)] [= Ht Hu _].
    + rewrite Ht1, Ht2 in Ht. simpl in Ht. done.
    + rewrite Hu1, Hu2 in Hu. simpl in Hu. done.
  - intros Ht1 Hu1 Ht2 Hu2 Hne. rewrite !adjustDefKey_fields.
    rewrite Ht1, Hu1, Ht2, Hu2. simpl.
    repeat split. intros [= Ht Hn _]. by destruct Hne.
Qed.

(** The units A and B of the specification's scenario, each with a
    definition that leaves its unit empty; and a key that names a
    repository and a unit name but no unit type. *)
Lemma adjustDefKey_distinct_units_witness :
  adjustDefKey keyF unitA <> adjustDefKey keyF unitB /\
  adjustDefKey {| Repo := "github.com/x/y"; UnitType := ""; Unit := "pkg";
                  Path := "F" |} unitA
  = {| Repo := ""; UnitType := "GoPackage"; Unit := "pkg"; Path := "F" |}.
Proof.
  split.
  - apply (proj1 (proj2 (adjustDefKey_distinct_units keyF keyF unitA unitB))).
    right. repeat split. vm_compute. discriminate.
  - exact (proj1 (adjustDefKey_distinct_units
                    {| Repo := "github.com/x/y"; UnitType := ""; Unit := "pkg";
                       Path := "F" |} keyF unitA unitB)).
Defined.

(** C8: normalizing a normalized key for the same unit changes nothing. *)
Theorem adjustDefKey_idempotent (k : DefKey) (u : SourceUnit) :
  adjustDefKey (adjustDefKey k u) u = adjustDefKey k u.
Proof.
  rewrite !adjustDefKey_fields. simpl.
  repeat case_decide; simpl; congruence.
Qed.

End KeyFacts.

(** ** Quotients *)

Section QuotientFacts.

Import Err Unit Graph Filepath Plan Cli Fixture.

Lemma divideSentinel_nan x y sentinel :
  F64.IsNaN (F64.div x y) = true -> divideSentinel x y sentinel = sentinel.
Proof. unfold divideSentinel. by intros ->. Qed.

Lemma divideSentinel_zero_zero sentinel :
  divideSentinel (F64.of_int 0) (F64.of_int 0) sentinel = sentinel.
Proof. reflexivity. Qed.

(** The guard of [divideSentinel] lets infinity through. *)
Lemma divideSentinel_finite_zero s m e sentinel :
  divideSentinel (S754_finite s m e) (F64.of_int 0) sentinel = S754_infinity s.
Proof. unfold divideSentinel. by destruct s. Qed.

Lemma divideSentinel_not_nan x y sentinel :
  F64.IsNaN sentinel = false -> F64.IsNaN (divideSentinel x y sentinel) = false.
Proof.
  intros Hs. unfold divideSentinel.
  by destruct (F64.IsNaN (F64.div x y)) eqn:E.
Qed.

(** A positive count over no line at all: the quotient is plus infinity
    and the sentinel is not used. *)
Lemma divideSentinel_pos_zero n sentinel :
  0 < n ->
  divideSentinel (F64.of_int n) (F64.of_int 0) sentinel = F64.pos_inf.
Proof.
  intros Hn. unfold divideSentinel. by rewrite div_pos_zero.
Qed.

Lemma toCoverage_density_inf (s : langStats) :
  loc s = 0 -> 0 < Int.add (numDefs s) (numRefs s) ->
  TokDensity (toCoverage s) = F64.pos_inf.
Proof.
  intros Hloc Hn. unfold toCoverage; simpl. rewrite Hloc.
  by apply divideSentinel_pos_zero.
Qed.

(** The scores of a language without covered files, without valid
    references, definitions or references, and without lines are the
    sentinel. *)
Lemma toCoverage_nothing (s : langStats) :
  numFiles s = 0 -> numIndexedFiles s = 0 ->
  numRefs s = 0 -> numRefsValid s = 0 ->
  numDefs s = 0 -> loc s = 0 ->
  toCoverage s =
    {| FileScore := F64.minus_one; RefScore := F64.minus_one;
       TokDensity := F64.minus_one; UncoveredFiles := uncoveredFiles s |}.
Proof.
  unfold toCoverage. by intros -> -> -> -> -> ->.
Qed.

(** C1, at the repository whose only source file is empty and has one
    definition: the language has no line and one definition, and its token
    density is plus infinity, not the sentinel -1. *)
Theorem coverage_infinite_density :
  coverage emptyFileWorld =
    ([], inr {[ "Go" := {| FileScore := F64.one;
                           RefScore := F64.minus_one;
                           TokDensity := F64.pos_inf;
                           UncoveredFiles := [] |} ]}).
Proof. by vm_compute. Qed.

(** C3, counterexample: a file of no line into which one definition was
    folded passes the test, is counted as covered and is not listed as
    uncovered. *)
Lemma zero_loc_file_covered :
  LoC emptyFileDatum = 0 /\
  fileCovered emptyFileDatum = true /\
  numIndexedFiles (addFile emptyStats "a.go" emptyFileDatum) = 1 /\
  uncoveredFiles (addFile emptyStats "a.go" emptyFileDatum) = [].
Proof. by vm_compute. Qed.

(** The quotient of the per-file decision is not a number when the file has
    no line and nothing was folded into it, and the test is then false. *)
Lemma fileCovered_zero_zero (datum : codeFileDatum) :
  LoC datum = 0 ->
  Int.add (NumDefs datum) (NumRefsValid datum) = 0 ->
  fileCovered datum = false.
Proof. unfold fileCovered. by intros -> ->. Qed.

(** With no line and something folded into the file the quotient is plus
    infinity, and the test holds. *)
Lemma fileCovered_zero_pos (datum : codeFileDatum) :
  LoC datum = 0 ->
  0 < Int.add (NumDefs datum) (NumRefsValid datum) ->
  fileCovered datum = true.
Proof.
  unfold fileCovered. intros -> Hn. by rewrite div_pos_zero.
Qed.

(** The list of uncovered files of a language only grows. *)
Lemma statsStep_keeps stats entry lang file :
  (exists s, stats !! lang = Some s /\ file ∈ uncoveredFiles s) ->
  exists s, statsStep stats entry !! lang = Some s /\ file ∈ uncoveredFiles s.
Proof.
  intros (s & Hs & Hin). destruct entry as [file' datum]. unfold statsStep.
  destruct (decide (Language datum = lang)) as [->|Hne].
  - rewrite lookup_insert_eq, Hs. simpl. eexists; split; [done|].
    simpl. destruct (fileCovered datum); set_solver.
  - rewrite lookup_insert_ne by done. eauto.
Qed.

Lemma statsFold_keeps entries stats lang file :
  (exists s, stats !! lang = Some s /\ file ∈ uncoveredFiles s) ->
  exists s, foldl statsStep stats entries !! lang = Some s
            /\ file ∈ uncoveredFiles s.
Proof.
  revert stats. induction entries as [|entry entries IH]; intros stats H;
    [done|].
  simpl. apply IH. by apply statsStep_keeps.
Qed.

Lemma statsFold_uncovered entries stats file datum :
  (file, datum) ∈ entries ->
  fileCovered datum = false ->
  exists s, foldl statsStep stats entries !! Language datum = Some s
            /\ file ∈ uncoveredFiles s.
Proof.
  revert stats. induction entries as [|entry entries IH]; intros stats Hin Hc.
  - by apply elem_of_nil in Hin.
  - apply elem_of_cons in Hin as [<-|Hin]; [|by apply IH].
    simpl. apply statsFold_keeps. unfold statsStep.
    rewrite lookup_insert_eq. eexists; split; [done|].
    simpl. rewrite Hc. set_solver.
Qed.

(** C3, as amended: a file of no line into which no definition and no valid
    reference was folded fails the test (the quotient is not a number, and no
    comparison with it holds); it is not counted as covered, and it is listed
    among the uncovered files of its language in the coverage. *)
Theorem zero_loc_file_uncovered
    (codeFileData : gmap string codeFileDatum) (file : string)
    (datum : codeFileDatum) (s : langStats) :
  codeFileData !! file = Some datum ->
  LoC datum = 0 ->
  Int.add (NumDefs datum) (NumRefsValid datum) = 0 ->
  fileCovered datum = false /\
  numIndexedFiles (addFile s file datum) = numIndexedFiles s /\
  uncoveredFiles (addFile s file datum) = uncoveredFiles s ++ [file] /\
  exists c, computeCoverage codeFileData !! Language datum = Some c
            /\ file ∈ UncoveredFiles c.
Proof.
  intros Hfile Hloc Hnum.
  pose proof (fileCovered_zero_zero datum Hloc Hnum) as Hc.
  split; [done|]. unfold addFile. rewrite Hc. do 2 (split; [done|]).
  unfold computeCoverage.
  destruct (statsFold_uncovered (map_to_list codeFileData) ∅ file datum)
    as (s' & Hs' & Hin); [by apply elem_of_map_to_list|done|].
  exists (toCoverage s'). by rewrite lookup_fmap, Hs'.
Qed.

(** An inventory of the single empty file [a.go], nothing folded into
    it. *)
Lemma zero_loc_file_uncovered_witness :
  fileCovered (newDatum 0 "Go") = false /\
  exists c, computeCoverage {[ "a.go" := newDatum 0 "Go" ]} !! "Go" = Some c
            /\ "a.go" ∈ UncoveredFiles c.
Proof.
  destruct (zero_loc_file_uncovered {[ "a.go" := newDatum 0 "Go" ]} "a.go"
              (newDatum 0 "Go") emptyStats)
    as (H1 & _ & _ & H2); [reflexivity | reflexivity | reflexivity |].
  exact (conj H1 H2).
Defined.

End QuotientFacts.

(** ** Loading the graph data *)

Section LoaderFacts.

Import Err Unit Graph Filepath Plan Cli Fixture.

Lemma parseTargets_app bdfs pre post st :
  parseTargets bdfs (pre ++ post) st =
    match parseTargets bdfs pre st with
    | (st', Some err) => (st', Some err)
    | (st', None) => parseTargets bdfs post st'
    end.
Proof.
  revert st. induction pre as [|[target u] pre IH]; intros st; simpl; [done|].
  destruct (parseGraphData bdfs target u st) as [st' [err|]]; [done|].
  apply IH.
Qed.

(** The loop over the rules reads the artifacts of the rules one after the
    other. *)
Lemma loadRules_flat bdfs rules st :
  loadRules bdfs rules st = parseTargets bdfs (flat_map ruleTargets rules) st.
Proof.
  revert st. induction rules as [|rule_ rules IH]; intros st; simpl; [done|].
  rewrite parseTargets_app. destruct rule_ as [target u|targets|]; simpl.
  - destruct (parseGraphData bdfs target u st) as [st' [err|]]; [done|].
    apply IH.
  - destruct (parseTargets bdfs targets st) as [st' [err|]]; [done|].
    apply IH.
  - apply IH.
Qed.

(** What [readJSONFileFS] returns: the error of [Open], else the error
    of the decoder, else the error of [Close], else the artifact. *)
Lemma readJSONFileFS_open_error (fs : FileSystem) file err :
  fs file = inl err -> readJSONFileFS fs file = inl err.
Proof. unfold readJSONFileFS. by intros ->. Qed.

Lemma readJSONFileFS_decode_error (fs : FileSystem) file f err :
  fs file = inr f -> decode f = inl err -> readJSONFileFS fs file = inl err.
Proof. unfold readJSONFileFS. by intros -> ->. Qed.

Lemma readJSONFileFS_close_error (fs : FileSystem) file f v err :
  fs file = inr f -> decode f = inr v -> close f = Some err ->
  readJSONFileFS fs file = inl err.
Proof. unfold readJSONFileFS. by intros -> -> ->. Qed.

Lemma readJSONFileFS_ok (fs : FileSystem) file f v :
  fs file = inr f -> decode f = inr v -> close f = None ->
  readJSONFileFS fs file = inr v.
Proof. unfold readJSONFileFS. by intros -> -> ->. Qed.

(** What [parseGraphData] does on each kind of error. *)
Lemma parseGraphData_empty bdfs graphFile u st :
  readJSONFileFS bdfs graphFile = inl errEmptyJSONFile ->
  parseGraphData bdfs graphFile u st = (addLog st (warnEmpty u), None).
Proof. unfold parseGraphData. by intros ->. Qed.

Lemma parseGraphData_not_exist bdfs graphFile u st err :
  readJSONFileFS bdfs graphFile = inl err ->
  IsNotExist err = true ->
  parseGraphData bdfs graphFile u st = (addLog st (warnNoData u), None).
Proof.
  unfold parseGraphData. intros -> Hne.
  destruct (decide (err = errEmptyJSONFile)) as [->|_]; [done|].
  by rewrite Hne.
Qed.

Lemma parseGraphData_fatal bdfs graphFile u st err :
  readJSONFileFS bdfs graphFile = inl err ->
  err <> errEmptyJSONFile ->
  IsNotExist err = false ->
  parseGraphData bdfs graphFile u st = (st, Some (errReading graphFile u err)).
Proof.
  unfold parseGraphData. intros -> Hne1 Hne2.
  destruct (decide (err = errEmptyJSONFile)); [done|]. by rewrite Hne2.
Qed.

(** The outcome of [coverage] when the loop over the rules has read the
    artifacts before [target] without an error and [readJSONFileFS] fails on
    [target]:
    - on the error [errEmptyJSONFile] and on an error of a missing file the
      loop writes a warning with the type and the name of the unit, changes
      nothing else, and [coverage] goes on with the artifacts behind
      [target];
    - on any other error [coverage] returns an error with the name of the
      artifact, the type and the name of the unit, and the text of the
      error. *)
Lemma coverage_read_error (w : World) (bdfs : FileSystem) (rules : list Rule)
    (pre post : list (string * SourceUnit)) (target : string)
    (u : SourceUnit) (st : LoadState) (err : error) :
  buildDataFS w = inr bdfs ->
  readCached w = None ->
  createMakefile w = inr rules ->
  flat_map ruleTargets rules = pre ++ (target, u) :: post ->
  parseTargets bdfs pre initState = (st, None) ->
  readJSONFileFS bdfs target = inl err ->
  coverage w =
    if decide (err = errEmptyJSONFile) then
      finish (gatherFileData w).1
        (parseTargets bdfs post
           (addLog st ("Warning: the JSON file is empty for unit "
                         ++ Type_ u ++ " " ++ Name u ++ ".")))
    else if IsNotExist err then
      finish (gatherFileData w).1
        (parseTargets bdfs post
           (addLog st ("Warning: no build data for unit "
                         ++ Type_ u ++ " " ++ Name u ++ ".")))
    else
      (log st,
       inl (Other ("error reading JSON file " ++ target ++ " for unit "
                     ++ Type_ u ++ " " ++ Name u ++ ": " ++ Error err))).
Proof.
  intros Hfs Hcfg Hmf Hflat Hpre Hread.
  unfold coverage. destruct (gatherFileData w) as [codeFileData walkErr].
  rewrite Hfs, Hcfg, Hmf, loadRules_flat, Hflat, parseTargets_app, Hpre.
  simpl. destruct (decide (err = errEmptyJSONFile)) as [->|Hne].
  - by rewrite parseGraphData_empty.
  - destruct (IsNotExist err) eqn:Hex.
    + by rewrite (parseGraphData_not_exist _ _ _ _ err).
    + by rewrite (parseGraphData_fatal _ _ _ _ err).
Qed.

(** [readJSONFileFS] never returns [errEmptyJSONFile] of its own: it
    returns it only if [Open], the decoder or [Close] does. *)
Lemma readJSONFileFS_errEmptyJSONFile (fs : FileSystem) file :
  readJSONFileFS fs file = inl errEmptyJSONFile ->
  fs file = inl errEmptyJSONFile \/
  exists f, fs file = inr f /\
    (decode f = inl errEmptyJSONFile \/ close f = Some errEmptyJSONFile).
Proof.
  unfold readJSONFileFS. destruct (fs file) as [err|f]; [by left; congruence|].
  intros H. right. exists f. split; [done|].
  destruct (decode f) as [err|v]; [left; congruence|].
  destruct (close f) as [err2|]; [right; congruence|done].
Qed.

(** An artifact that is a file of no bytes: the decoder answers [io.EOF],
    [readJSONFileFS] hands it on, and since it is neither
    [errEmptyJSONFile] nor an error of a missing file, [parseGraphData]
    writes no warning and fails. *)
Lemma parseGraphData_emptyFile bdfs graphFile u st :
  bdfs graphFile = inr emptyFile ->
  parseGraphData bdfs graphFile u st =
    (st, Some (Other ("error reading JSON file " ++ graphFile ++ " for unit "
                        ++ Type_ u ++ " " ++ Name u ++ ": EOF"))).
Proof.
  intros Hf. apply (parseGraphData_fatal _ _ _ _ io_EOF); [|done|done].
  by apply (readJSONFileFS_decode_error _ _ emptyFile).
Qed.

(** C5, at a plan of three units: the artifact of A is missing, that of B
    is a file of no bytes, that of C decodes.  The missing artifact gives
    its warning and the loop goes on; the empty artifact gives no warning:
    the branch of [parseGraphData] that would write it compares the error
    with [errEmptyJSONFile], and the error of the empty file is [io.EOF].
    [coverage] ends with the error of the artifact of B, and the artifact of
    C is not read. *)
Theorem empty_artifact_aborts :
  coverage (threeUnitsWorld (decoded {| Defs := []; Refs := [] |})) =
    ([ "Warning: no build data for unit GoPackage A." ],
     inl (Other "error reading JSON file B.graph.json for unit GoPackage B: EOF")).
Proof. by vm_compute. Qed.

(** The references of an artifact are normalized where they are stored. *)
Lemma normalizeRef_new u (h rs : list Ref) :
  foldl (normalizeRef u) (h ++ rs) (seq (length h) (length rs))
    = h ++ map (normalized u) rs.
Proof.
  revert h. induction rs as [|r rs IH]; intros h; simpl; [done|].
  unfold normalizeRef at 2.
  rewrite alter_app_r_alt, Nat.sub_diag by lia. simpl.
  fold (normalized u r).
  rewrite (cons_middle _ h rs), app_assoc.
  replace (S (length h)) with (length (h ++ [normalized u r]))
    by (rewrite length_app; simpl; lia).
  rewrite IH. by rewrite <- app_assoc.
Qed.

Lemma normalized_DefRepo u ref : DefRepo (normalized u ref) = "".
Proof. unfold normalized. by rewrite adjustDefKey_fields. Qed.

(** After the loader no reference in the store names a repository: the
    normalization has cleared the field. *)
Lemma parseGraphData_DefRepo bdfs graphFile u st :
  Forall (fun ref => DefRepo ref = "") (heap st) ->
  Forall (fun ref => DefRepo ref = "")
         (heap (parseGraphData bdfs graphFile u st).1).
Proof.
  intros H. unfold parseGraphData.
  destruct (readJSONFileFS bdfs graphFile) as [err|v].
  - by repeat case_match.
  - simpl. rewrite normalizeRef_new. apply Forall_app. split; [done|].
    change (map (normalized u) (Refs v)) with (normalized u <$> Refs v).
    apply Forall_fmap, Forall_true. intros ref. apply normalized_DefRepo.
Qed.

Lemma parseTargets_DefRepo bdfs targets st :
  Forall (fun ref => DefRepo ref = "") (heap st) ->
  Forall (fun ref => DefRepo ref = "") (heap (parseTargets bdfs targets st).1).
Proof.
  revert st. induction targets as [|[target u] targets IH]; intros st H;
    simpl; [done|].
  pose proof (parseGraphData_DefRepo bdfs target u st H) as H'.
  destruct (parseGraphData bdfs target u st) as [st' [err|]]; [done|].
  by apply IH.
Qed.

Lemma loadRules_DefRepo bdfs rules :
  Forall (fun ref => DefRepo ref = "")
         (heap (loadRules bdfs rules initState).1).
Proof. rewrite loadRules_flat. by apply parseTargets_DefRepo. Qed.

(** Folding a reference of a file of the inventory: the file has one
    reference more, and one valid reference more if the reference names a
    repository or its key is among the definition keys. *)
Lemma foldRef_counts keys heap codeFileData p ref datum :
  heap !! p = Some ref ->
  codeFileData !! File ref = Some datum ->
  foldRef keys heap codeFileData p !! File ref =
    Some {| LoC := LoC datum;
            NumRefs := Int.incr (NumRefs datum);
            NumDefs := NumDefs datum;
            NumRefsValid :=
              if bool_decide (DefRepo ref <> "" \/ Ref_DefKey ref ∈ keys)
              then Int.incr (NumRefsValid datum) else NumRefsValid datum;
            Language := Language datum |}.
Proof.
  intros Hp Hd. unfold foldRef. rewrite Hp, Hd, lookup_insert_eq.
  do 2 f_equal.
  destruct (decide (DefRepo ref = "")) as [He|Hne].
  - rewrite (bool_decide_eq_true_2 _ He). simpl.
    by rewrite (bool_decide_ext (DefRepo ref <> "" \/ Ref_DefKey ref ∈ keys)
                  (Ref_DefKey ref ∈ keys)) by tauto.
  - rewrite (bool_decide_eq_false_2 _ Hne). simpl.
    by rewrite bool_decide_eq_true_2 by (by left).
Qed.

(** After the loader the first test is always false, and a reference is
    valid exactly if its key is among the definition keys. *)
Lemma foldRef_loaded bdfs rules st codeFileData p ref datum :
  (loadRules bdfs rules initState).1 = st ->
  heap st !! p = Some ref ->
  codeFileData !! File ref = Some datum ->
  NumRefsValid <$> foldRef (defKeys st) (heap st) codeFileData p !! File ref =
    Some (if bool_decide (Ref_DefKey ref ∈ defKeys st)
          then Int.incr (NumRefsValid datum) else NumRefsValid datum).
Proof.
  intros <- Hp Hd. rewrite (foldRef_counts _ _ _ _ _ _ Hp Hd). simpl.
  f_equal. pose proof (loadRules_DefRepo bdfs rules) as Hall.
  rewrite Forall_lookup in Hall. specialize (Hall _ _ Hp). simpl in Hall.
  apply (f_equal (fun b : bool => if b then _ else _)).
  apply bool_decide_ext. split; [|by right].
  by intros [Hne|Hin].
Qed.

(** C4, at the repository whose artifact holds one reference that names
    the defining repository [github.com/x/y] and no definition: the loader
    clears the field of the reference in the store, and the aggregator counts
    the reference but does not count it valid. *)
Theorem external_ref_not_valid :
  DefRepo externalRef = "github.com/x/y" /\
  exists st,
    loadRules (oneArtifact (decoded {| Defs := []; Refs := [externalRef] |}))
              planA initState = (st, None) /\
    heap st = [ {| DefRepo := ""; DefUnitType := "GoPackage"; DefUnit := "y";
                   DefPath := "F"; File := "a.go" |} ] /\
    foldGraphData st (gatherFileData externalRefWorld).1 !! "a.go" =
      Some {| LoC := 2; NumRefs := 1; NumDefs := 0; NumRefsValid := 0;
              Language := "Go" |} /\
    coverage externalRefWorld =
      ([], inr {[ "Go" := {| FileScore := F64.zero; RefScore := F64.zero;
                             TokDensity :=
                               S754_finite false 4503599627370496 (-53);
                             UncoveredFiles := ["a.go"] |} ]}).
Proof.
  split; [done|]. eexists. split; [by vm_compute|]. by vm_compute.
Qed.

(** Once the build data and the plan are there, what [coverage] returns is
    made of the file data the walk has gathered and of the graph data; the
    error of the walk is no part of it. *)
Lemma coverage_without_walk_error (w : World) bdfs rules :
  buildDataFS w = inr bdfs ->
  readCached w = None ->
  createMakefile w = inr rules ->
  coverage w = finish (gatherFileData w).1 (loadRules bdfs rules initState).
Proof.
  intros Hfs Hcfg Hmf. unfold coverage.
  destruct (gatherFileData w) as [codeFileData walkErr].
  by rewrite Hfs, Hcfg, Hmf.
Qed.

(** C6, at the repository whose [a.go] cannot be read: the walk stops with
    the error of the read, [b.go] is never visited, and [coverage] returns
    no error but the coverage of an empty inventory. *)
Theorem unreadable_file_not_reported :
  gatherFileData unreadableWorld =
    (∅, Some (Other "open a.go: permission denied")) /\
  coverage unreadableWorld = ([], inr ∅).
Proof. by vm_compute. Qed.

End LoaderFacts.

(** ** The cached local repository *)

Section RepoFacts.

Import Err Src Fixture.

Variable Env : Type.
Variable OpenRepo : string -> Env -> option Repo * option error.

(** Once a repository or an error is stored, every call returns the stored
    pair, leaves the state alone and does not call [OpenRepo]. *)
Lemma calls_stored (envs : list Env) (st : Pkg) :
  CacheLocalRepo st = true ->
  (localRepo st, localRepoErr st) <> (None, None) ->
  calls Env OpenRepo envs st =
    (repeat (localRepo st, localRepoErr st) (length envs), st, 0%nat).
Proof.
  intros Hc Hst. induction envs as [|env envs IH]; simpl; [done|].
  unfold openLocalRepo. rewrite Hc. simpl.
  destruct (localRepo st) as [r|] eqn:Hr, (localRepoErr st) as [e|] eqn:He;
    try done; by rewrite IH.
Qed.

(** Without caching every call opens the repository again, in the
    surroundings of its moment. *)
Lemma calls_uncached (envs : list Env) (st : Pkg) :
  CacheLocalRepo st = false ->
  calls Env OpenRepo envs st = (map (OpenRepo ".") envs, st, length envs).
Proof.
  intros Hc. induction envs as [|env envs IH]; simpl; [done|].
  unfold openLocalRepo. rewrite Hc. simpl. by rewrite IH.
Qed.

(** With caching on, a first call that gets a repository or an error
    stores the pair, and every later call returns it without opening
    again. *)
Lemma calls_first (env0 : Env) (envs : list Env) (st0 : Pkg) :
  CacheLocalRepo st0 = true ->
  localRepo st0 = None -> localRepoErr st0 = None ->
  OpenRepo "." env0 <> (None, None) ->
  calls Env OpenRepo (env0 :: envs) st0 =
    (repeat (OpenRepo "." env0) (S (length envs)),
     {| localRepo := (OpenRepo "." env0).1;
        localRepoErr := (OpenRepo "." env0).2;
        CacheLocalRepo := true |},
     1%nat).
Proof.
  intros Hc Hr He Hopen. simpl. unfold openLocalRepo.
  rewrite Hc, Hr, He. simpl.
  destruct (OpenRepo "." env0) as [r e] eqn:Ho.
  by rewrite calls_stored.
Qed.

(** The contract of [OpenRepo], which is declared outside these sources:
    it answers with a repository or with an error, never with neither.  The
    test [localRepo == nil && localRepoErr == nil], by which [openLocalRepo]
    tells that nothing was opened yet, relies on it. *)
Hypothesis OpenRepo_answers :
  forall dir env, OpenRepo dir env <> (None, None).

(** C10: with caching on, the first call of [openLocalRepo] in a process
    calls [OpenRepo] and stores the pair it gets, and every later call
    returns that pair without opening again, whatever the surroundings have
    become: [OpenRepo] is called once, however many calls follow.  With
    caching off every call opens again, in the surroundings of its
    moment. *)
Theorem openLocalRepo_once (env0 : Env) (envs : list Env) (st0 : Pkg) :
  (CacheLocalRepo st0 = true ->
   localRepo st0 = None -> localRepoErr st0 = None ->
   calls Env OpenRepo (env0 :: envs) st0 =
     (repeat (OpenRepo "." env0) (S (length envs)),
      {| localRepo := (OpenRepo "." env0).1;
         localRepoErr := (OpenRepo "." env0).2;
         CacheLocalRepo := true |},
      1%nat)) /\
  (CacheLocalRepo st0 = false ->
   calls Env OpenRepo (env0 :: envs) st0 =
     (map (OpenRepo ".") (env0 :: envs), st0, S (length envs))).
Proof.
  split.
  - intros Hc Hr He. by apply calls_first.
  - intros Hc. by rewrite calls_uncached.
Qed.

End RepoFacts.

Section RepoExamples.

Import Err Src Fixture.

(** Three calls from three working directories with caching on, and two
    calls with caching off. *)
Lemma openLocalRepo_once_witness :
  calls string openHere ["/repo"; "/repo/sub"; "/elsewhere"] initPkg =
    (repeat (openHere "." "/repo") 3,
     {| localRepo := (openHere "." "/repo").1;
        localRepoErr := (openHere "." "/repo").2;
        CacheLocalRepo := true |},
     1%nat) /\
  calls string openHere ["/repo"; "/repo/sub"]
        {| localRepo := None; localRepoErr := None; CacheLocalRepo := false |} =
    ([openHere "." "/repo"; openHere "." "/repo/sub"],
     {| localRepo := None; localRepoErr := None; CacheLocalRepo := false |},
     2%nat).
Proof.
  assert (forall dir env : string, openHere dir env <> (None, None)) as Hopen
    by (intros dir env; vm_compute; discriminate).
  split.
  - apply (openLocalRepo_once string openHere Hopen "/repo"
             ["/repo/sub"; "/elsewhere"] initPkg); reflexivity.
  - apply (openLocalRepo_once string openHere Hopen "/repo" ["/repo/sub"]
             {| localRepo := None; localRepoErr := None;
                CacheLocalRepo := false |}).
    reflexivity.
Defined.

End RepoExamples.

(** * Further properties *)

(** ** Sums and counts of [int]s *)

Section WrapFacts.

Import Int Spec.

Lemma wrap_add_l a b : wrap (wrap a + b) = wrap (a + b).
Proof.
  unfold wrap. f_equal.
  replace ((a + 2 ^ 63) mod 2 ^ 64 - 2 ^ 63 + b + 2 ^ 63)
    with ((a + 2 ^ 63) mod 2 ^ 64 + b) by lia.
  rewrite Zplus_mod_idemp_l. f_equal. lia.
Qed.

Lemma wrap_add_r a b : wrap (a + wrap b) = wrap (a + b).
Proof. by rewrite Z.add_comm, wrap_add_l, Z.add_comm. Qed.

Lemma wrap_wrap a : wrap (wrap a) = wrap a.
Proof. apply wrap_small, wrap_range. Qed.

Lemma countInt_snoc {A : Type} (l : list A) (x : A) :
  countInt (l ++ [x]) = incr (countInt l).
Proof.
  unfold countInt, incr, add. rewrite wrap_add_l, length_app. simpl.
  f_equal. lia.
Qed.

Lemma sumInt_snoc {A : Type} (f : A -> Z) (l : list A) (x : A) :
  sumInt f (l ++ [x]) = add (sumInt f l) (f x).
Proof.
  unfold sumInt, add. rewrite wrap_add_l. f_equal.
  induction l as [|y l IH]; simpl; lia.
Qed.

End WrapFacts.

(** ** The statistics of the languages *)

Section StatsFacts.

Import Err Unit Graph Filepath Plan Cli Spec.

Lemma statsOf_nil lang : statsOf [] lang = emptyStats.
Proof. by vm_compute. Qed.

Lemma filter_snoc {A : Type} (p : A -> bool) (l : list A) (x : A) :
  List.filter p (l ++ [x]) = List.filter p l ++ (if p x then [x] else []).
Proof. rewrite List.filter_app. simpl. by destruct (p x). Qed.

Lemma addFile_statsOf entries file datum :
  addFile (statsOf entries (Language datum)) file datum =
    statsOf (entries ++ [(file, datum)]) (Language datum).
Proof.
  unfold addFile, statsOf. rewrite filter_snoc. simpl.
  rewrite String.eqb_refl.
  set (es := List.filter _ entries).
  rewrite !filter_snoc, !sumInt_snoc, countInt_snoc. simpl.
  destruct (fileCovered datum); simpl.
  - by rewrite countInt_snoc, app_nil_r.
  - by rewrite map_app, app_nil_r.
Qed.

Lemma statsOf_other entries file datum lang :
  Language datum <> lang ->
  statsOf (entries ++ [(file, datum)]) lang = statsOf entries lang.
Proof.
  intros Hne. unfold statsOf. rewrite filter_snoc. simpl.
  apply String.eqb_neq in Hne. by rewrite Hne, app_nil_r.
Qed.

(** The loop over the file data: the statistics of a language are those of
    its files, and a language without a file has none. *)
Lemma stats_lookup (entries : list (string * codeFileDatum)) (lang : string) :
  foldl statsStep ∅ entries !! lang =
    if existsb (fun e => String.eqb (Language e.2) lang) entries
    then Some (statsOf entries lang) else None.
Proof.
  induction entries as [|[file datum] entries IH] using rev_ind; [done|].
  rewrite foldl_app, existsb_app. simpl. rewrite orb_false_r.
  destruct (String.eqb_spec (Language datum) lang) as [<-|Hne].
  - rewrite lookup_insert_eq, orb_true_r. f_equal.
    rewrite IH, <- addFile_statsOf. f_equal.
    destruct (existsb _ entries) eqn:E; [done|]. simpl.
    rewrite <- (statsOf_nil (Language datum)). unfold statsOf. simpl.
    replace (List.filter (fun e => String.eqb (Language e.2) (Language datum))
               entries) with (@nil (string * codeFileDatum)); [done|].
    symmetry. clear IH. induction entries as [|e es IHes]; [done|].
    simpl in E |- *. apply orb_false_elim in E as [-> E]. by apply IHes.
  - rewrite lookup_insert_ne, orb_false_r, IH by done.
    by rewrite statsOf_other.
Qed.

(** X13: The report of a language is computed from the statistics of the files
    of that language: the numbers of its files and of its covered files, the
    sums of their counters and of their lines, and its uncovered files in
    the order of the range over the inventory.  A language without a file
    has no report. *)
Theorem computeCoverage_lookup (codeFileData : gmap string codeFileDatum)
    (lang : string) :
  computeCoverage codeFileData !! lang =
    if existsb (fun e => String.eqb (Language e.2) lang)
               (map_to_list codeFileData)
    then Some (toCoverage (statsOf (map_to_list codeFileData) lang))
    else None.
Proof.
  unfold computeCoverage. rewrite lookup_fmap, stats_lookup.
  by destruct (existsb _ _).
Qed.

(** X14: The report has an entry for a language exactly if the inventory has a
    file of that language. *)
Theorem computeCoverage_languages (codeFileData : gmap string codeFileDatum)
    (lang : string) :
  is_Some (computeCoverage codeFileData !! lang) <->
  exists file datum,
    codeFileData !! file = Some datum /\ Language datum = lang.
Proof.
  unfold computeCoverage. rewrite lookup_fmap, stats_lookup.
  destruct (existsb _ _) eqn:E; simpl.
  - split; [intros _|by eauto].
    apply existsb_exists in E as ([file datum] & Hin & Heq).
    exists file, datum. split.
    + by apply elem_of_map_to_list, list_elem_of_In.
    + by apply String.eqb_eq.
  - split; [by intros []|]. intros (file & datum & Hf & Hl).
    assert (existsb (fun e => String.eqb (Language e.2) lang)
              (map_to_list codeFileData) = true); [|congruence].
    apply existsb_exists. exists (file, datum). split.
    + by apply list_elem_of_In, elem_of_map_to_list.
    + by apply String.eqb_eq.
Qed.

Lemma NoDup_fst_filter {A : Type} (p : string * A -> bool)
    (l : list (string * A)) :
  NoDup (map fst l) -> NoDup (map fst (List.filter p l)).
Proof.
  induction l as [|x l IH]; simpl; [done|].
  intros [Hx Hl]%NoDup_cons. destruct (p x); simpl; [|by auto].
  apply NoDup_cons. split; [|by auto].
  intros Hin. apply Hx.
  apply list_elem_of_In, in_map_iff in Hin as (y & Hy & Hin).
  apply filter_In in Hin as [Hin _].
  apply list_elem_of_In, in_map_iff. eauto.
Qed.

(** X15: The list of uncovered files of a language holds the files of the
    language that fail the test, each of them once. *)
Theorem computeCoverage_uncovered (codeFileData : gmap string codeFileDatum)
    (lang : string) (c : Coverage) :
  computeCoverage codeFileData !! lang = Some c ->
  NoDup (UncoveredFiles c) /\
  forall file,
    file ∈ UncoveredFiles c <->
    exists datum, codeFileData !! file = Some datum /\
                  Language datum = lang /\ fileCovered datum = false.
Proof.
  unfold computeCoverage. rewrite lookup_fmap, stats_lookup.
  destruct (existsb _ _); [|done]. intros [= <-]. simpl. split.
  - do 2 apply NoDup_fst_filter. apply NoDup_fst_map_to_list.
  - intros file. rewrite list_elem_of_In, in_map_iff. split.
    + intros ([file' datum] & <- & Hin).
      apply filter_In in Hin as [Hin Hc].
      apply filter_In in Hin as [Hin Hl].
      exists datum. repeat split.
      * by apply elem_of_map_to_list, list_elem_of_In.
      * by apply String.eqb_eq.
      * by apply negb_true_iff.
    + intros (datum & Hf & Hl & Hc). exists (file, datum). split; [done|].
      apply filter_In. split; [apply filter_In; split|].
      * by apply list_elem_of_In, elem_of_map_to_list.
      * by apply String.eqb_eq.
      * by apply negb_true_iff.
Qed.

Lemma computeCoverage_uncovered_witness :
  "a.go" ∈ ["a.go"] <->
  exists datum,
    ({[ "a.go" := newDatum 2 "Go" ]} : gmap string codeFileDatum) !! "a.go"
      = Some datum /\
    Language datum = "Go" /\ fileCovered datum = false.
Proof.
  destruct (computeCoverage_uncovered {[ "a.go" := newDatum 2 "Go" ]} "Go"
              {| FileScore := F64.zero; RefScore := F64.minus_one;
                 TokDensity := F64.zero; UncoveredFiles := ["a.go"] |})
    as [_ H]; [reflexivity|].
  exact (H "a.go").
Defined.

End StatsFacts.

(** ** Folding the graph data into the file data *)

Section FoldFacts.

Import Err Unit Graph Filepath Plan Cli Spec.

Lemma folded_ints keys refs defs file datum :
  ints (folded keys refs defs file datum).
Proof. repeat split; apply wrap_range. Qed.

Lemma folded_nil keys file datum :
  ints datum -> folded keys [] [] file datum = datum.
Proof.
  intros (H1 & H2 & H3). destruct datum. unfold folded; simpl in *.
  rewrite !Z.add_0_r. by rewrite !wrap_small by done.
Qed.

(** Folding in two goes is folding in one. *)
Lemma folded_app keys refs1 refs2 defs1 defs2 file datum :
  folded keys refs2 defs2 file (folded keys refs1 defs1 file datum) =
    folded keys (refs1 ++ refs2) (defs1 ++ defs2) file datum.
Proof.
  unfold folded; simpl.
  rewrite !List.filter_app, !length_app, !wrap_add_l.
  f_equal; f_equal; lia.
Qed.

Lemma folded_other_ref keys ref refs defs file datum :
  File ref <> file ->
  folded keys (refs ++ [ref]) defs file datum = folded keys refs defs file datum.
Proof.
  intros Hne. unfold folded. rewrite filter_snoc.
  apply String.eqb_neq in Hne. by rewrite Hne, app_nil_r.
Qed.

Lemma folded_other_def keys def refs defs file datum :
  DefFile def <> file ->
  folded keys refs (defs ++ [def]) file datum = folded keys refs defs file datum.
Proof.
  intros Hne. unfold folded. rewrite (filter_snoc _ defs).
  apply String.eqb_neq in Hne. by rewrite Hne, app_nil_r.
Qed.

Lemma validRef_spec keys ref :
  validRef keys ref =
    if negb (bool_decide (DefRepo ref = "")) then true
    else bool_decide (Ref_DefKey ref ∈ keys).
Proof. unfold validRef. by destruct (bool_decide (DefRepo ref = "")). Qed.

Lemma refStep_folded keys ref datum :
  ints datum ->
  {| LoC := LoC datum;
     NumRefs := Int.incr (NumRefs datum);
     NumDefs := NumDefs datum;
     NumRefsValid :=
       if negb (bool_decide (DefRepo ref = "")) then
         Int.incr (NumRefsValid datum)
       else if bool_decide (Ref_DefKey ref ∈ keys) then
         Int.incr (NumRefsValid datum)
       else NumRefsValid datum;
     Language := Language datum |} = folded keys [ref] [] (File ref) datum.
Proof.
  intros (H1 & H2 & H3). unfold folded. simpl. rewrite String.eqb_refl. simpl.
  rewrite Z.add_0_r, (wrap_small (NumDefs datum)) by done.
  unfold Int.incr, Int.add. f_equal.
  rewrite validRef_spec.
  destruct (negb (bool_decide (DefRepo ref = ""))); simpl; [done|].
  destruct (bool_decide (Ref_DefKey ref ∈ keys)); simpl; [done|].
  by rewrite Z.add_0_r, wrap_small.
Qed.

Lemma defStep_folded keys def datum :
  ints datum ->
  {| LoC := LoC datum;
     NumRefs := NumRefs datum;
     NumDefs := Int.incr (NumDefs datum);
     NumRefsValid := NumRefsValid datum;
     Language := Language datum |} = folded keys [] [def] (DefFile def) datum.
Proof.
  intros (H1 & H2 & H3). unfold folded. simpl. rewrite String.eqb_refl. simpl.
  by rewrite !Z.add_0_r, (wrap_small (NumRefs datum)),
    (wrap_small (NumRefsValid datum)) by done.
Qed.

(** One reference folded into data that are already folded. *)
Lemma foldRef_folded keys heap (codeFileData0 codeFileData : gmap string codeFileDatum)
    refs p file :
  (forall f, codeFileData !! f =
             folded keys refs [] f <$> codeFileData0 !! f) ->
  foldRef keys heap codeFileData p !! file =
    folded keys (refs ++ deref heap [p]) [] file <$> codeFileData0 !! file.
Proof.
  intros IH.
  assert (Hderef : deref heap [p] = match heap !! p with
                                     | Some ref => [ref]
                                     | None => []
                                     end).
  { unfold deref. simpl. by destruct (heap !! p). }
  rewrite Hderef. unfold foldRef.
  destruct (heap !! p) as [ref|] eqn:Hp; [|by rewrite app_nil_r].
  rewrite (IH (File ref)).
  destruct (codeFileData0 !! File ref) as [d0|] eqn:Hd0.
  - pose proof (folded_ints keys refs [] (File ref) d0) as Hd.
    destruct (decide (File ref = file)) as [<-|Hne].
    + rewrite Hd0. cbn [fmap option_fmap option_map].
      rewrite lookup_insert_eq. f_equal.
      rewrite (refStep_folded keys ref) by done.
      by rewrite folded_app.
    + cbn [fmap option_fmap option_map].
      rewrite lookup_insert_ne, IH by done.
      apply option_fmap_ext. intros d. by apply eq_sym, folded_other_ref.
  - cbn [fmap option_fmap option_map].
    rewrite IH. destruct (decide (File ref = file)) as [<-|Hne].
    + by rewrite Hd0.
    + apply option_fmap_ext. intros d. by apply eq_sym, folded_other_ref.
Qed.

Lemma foldRefs_folded keys heap (codeFileData : gmap string codeFileDatum) ps file :
  (forall f d, codeFileData !! f = Some d -> ints d) ->
  foldl (foldRef keys heap) codeFileData ps !! file =
    folded keys (deref heap ps) [] file <$> codeFileData !! file.
Proof.
  intros Hints. revert file.
  induction ps as [|p ps IH] using rev_ind; intros file.
  - simpl. destruct (codeFileData !! file) as [d|] eqn:E; [|done].
    simpl. by rewrite folded_nil by eauto.
  - rewrite foldl_app. simpl.
    rewrite (foldRef_folded keys heap codeFileData _ (deref heap ps)) by done.
    unfold deref. by rewrite omap_app.
Qed.

(** One definition folded into data that are already folded. *)
Lemma foldDef_folded keys (codeFileData0 codeFileData : gmap string codeFileDatum)
    refs defs def file :
  (forall f, codeFileData !! f =
             folded keys refs defs f <$> codeFileData0 !! f) ->
  foldDef codeFileData def !! file =
    folded keys refs (defs ++ [def]) file <$> codeFileData0 !! file.
Proof.
  intros IH. unfold foldDef. rewrite (IH (DefFile def)).
  destruct (codeFileData0 !! DefFile def) as [d0|] eqn:Hd0.
  - pose proof (folded_ints keys refs defs (DefFile def) d0) as Hd.
    destruct (decide (DefFile def = file)) as [<-|Hne].
    + rewrite Hd0. cbn [fmap option_fmap option_map].
      rewrite lookup_insert_eq. f_equal.
      rewrite (defStep_folded keys def) by done.
      by rewrite folded_app, app_nil_r.
    + cbn [fmap option_fmap option_map].
      rewrite lookup_insert_ne, IH by done.
      apply option_fmap_ext. intros d. by apply eq_sym, folded_other_def.
  - cbn [fmap option_fmap option_map].
    rewrite IH. destruct (decide (DefFile def = file)) as [<-|Hne].
    + by rewrite Hd0.
    + apply option_fmap_ext. intros d. by apply eq_sym, folded_other_def.
Qed.

Lemma foldItem_folded keys heap
    (codeFileData0 codeFileData : gmap string codeFileDatum) refs defs item file :
  (forall f, codeFileData !! f =
             folded keys refs defs f <$> codeFileData0 !! f) ->
  foldItem keys heap codeFileData item !! file =
    folded keys (refs ++ deref heap (iRefs item)) (defs ++ iDefs item) file
      <$> codeFileData0 !! file.
Proof.
  intros IH. unfold foldItem.
  assert (Hrefs : forall f,
    foldl (foldRef keys heap) codeFileData (iRefs item) !! f =
      folded keys (refs ++ deref heap (iRefs item)) defs f
        <$> codeFileData0 !! f).
  { intros f. rewrite foldRefs_folded, IH.
    - rewrite <- option_fmap_compose. apply option_fmap_ext. intros d. simpl.
      by rewrite folded_app, app_nil_r.
    - intros f' d Hd. rewrite IH in Hd.
      destruct (codeFileData0 !! f'); [|done].
      injection Hd as <-. apply folded_ints. }
  revert file. generalize (iDefs item). intros ds.
  induction ds as [|def ds IHds] using rev_ind; intros file.
  - simpl. by rewrite app_nil_r.
  - rewrite foldl_app. simpl.
    rewrite (foldDef_folded keys codeFileData0 _
               (refs ++ deref heap (iRefs item)) (defs ++ ds)) by done.
    by rewrite app_assoc.
Qed.

(** The loop over the loaded outputs, one output at a time. *)
Lemma foldGraphData_lookup (st : LoadState)
    (codeFileData : gmap string codeFileDatum) (file : string) :
  (forall f d, codeFileData !! f = Some d -> ints d) ->
  foldGraphData st codeFileData !! file =
    folded (defKeys st) (allRefs st) (allDefs st) file
      <$> codeFileData !! file.
Proof.
  intros Hints. unfold foldGraphData, allRefs, allDefs. revert file.
  generalize (data st). intros items.
  induction items as [|item items IH] using rev_ind; intros file.
  - simpl. destruct (codeFileData !! file) as [d|] eqn:E; [|done].
    simpl. by rewrite folded_nil by eauto.
  - rewrite foldl_app, !flat_map_app. simpl. rewrite !app_nil_r.
    by apply foldItem_folded.
Qed.

End FoldFacts.

(** ** The walk over the tree *)

Section WalkFacts.

Import Err Filepath.

Lemma Node_nested_ind (P : Node -> Prop) :
  (forall name read, P (FileNode name read)) ->
  (forall name entries, Forall P entries -> P (DirNode name entries)) ->
  forall n, P n.
Proof.
  intros Hf Hd. fix IH 1. intros [name read|name entries]; [apply Hf|].
  apply Hd. induction entries as [|e es IHes]; constructor;
    [apply IH|apply IHes].
Qed.

(** What the callback keeps, the walk keeps. *)
Lemma walk_invariant {A : Type}
    (walkFn : string -> Node -> A -> A * option walkErr) (I : A -> Prop) :
  (forall path n a, I a -> I (walkFn path n a).1) ->
  forall n path a, I a -> I (walk walkFn path n a).1.
Proof.
  intros Hfn. induction n as [name read|name entries IH] using Node_nested_ind;
    intros path a Ha; simpl; [by apply Hfn|].
  pose proof (Hfn path (DirNode name entries) a Ha) as Ha1.
  destruct (walkFn path (DirNode name entries) a) as [a1 [err1|]]; [done|].
  simpl in Ha1. revert a1 Ha1.
  induction IH as [|e es He _ IHes]; intros a1 Ha1; [done|].
  pose proof (He (join path (InfoName e)) a1 Ha1) as Ha2.
  destruct (walk walkFn (join path (InfoName e)) e a1) as [a2 [[|err]|]];
    simpl in Ha2; [|done|by apply IHes].
  destruct (IsDir e); [by apply IHes|done].
Qed.

End WalkFacts.

Section InventoryFacts.

Import Err Unit Graph Filepath Plan Cli Spec.

(** The invariant of the walk. *)
Lemma gatherFileData_fresh (w : World) (path : string) (datum : codeFileDatum) :
  (gatherFileData w).1 !! path = Some datum ->
  extToLang !! Ext path = Some (Language datum) /\
  NumRefs datum = 0 /\ NumDefs datum = 0 /\ NumRefsValid datum = 0.
Proof.
  unfold gatherFileData, Walk.
  pose proof (walk_invariant walkFn
    (fun cfd : gmap string codeFileDatum => forall path d,
       cfd !! path = Some d ->
       extToLang !! Ext path = Some (Language d) /\
       NumRefs d = 0 /\ NumDefs d = 0 /\ NumRefsValid d = 0)) as Hinv.
  specialize (Hinv ltac:(
    intros p n a Ha; unfold walkFn;
    destruct n as [name read|name entries];
    [ destruct (extToLang !! Ext p) as [lang|] eqn:El; [|exact Ha];
      destruct read as [err|b]; [exact Ha|]; simpl;
      intros p' d; destruct (decide (p = p')) as [<-|Hne];
      [ rewrite lookup_insert_eq; by intros [= <-]
      | rewrite lookup_insert_ne by done; apply Ha ]
    | by destruct (String.prefix "." name) ])).
  specialize (Hinv (root w) "."%string ∅ ltac:(by intros p d)).
  destruct (walk walkFn "." (root w) ∅) as [cfd err]. apply Hinv.
Qed.

(** X2: Every entry of the inventory stands under the path of a file whose
    extension is in the table, carries the language of that extension, and
    has counted nothing yet. *)
Theorem inventory_entries (w : World) (path : string) (datum : codeFileDatum) :
  (gatherFileData w).1 !! path = Some datum ->
  extToLang !! Ext path = Some (Language datum) /\
  NumRefs datum = 0 /\ NumDefs datum = 0 /\ NumRefsValid datum = 0.
Proof. apply gatherFileData_fresh. Qed.

Lemma inventory_entries_witness :
  extToLang !! Ext "a.go" = Some "Go"%string.
Proof.
  apply (inventory_entries Fixture.externalRefWorld "a.go" (newDatum 2 "Go")).
  reflexivity.
Defined.

(** X3: A hidden directory and all that is under it add nothing to the
    inventory: the walk over a tree is the walk over the tree without its
    hidden directories. *)
Theorem walk_prune (n : Node) (path : string)
    (codeFileData : gmap string codeFileDatum) :
  walk walkFn path (prune n) codeFileData = walk walkFn path n codeFileData.
Proof.
  revert path codeFileData.
  induction n as [name read|name entries IH] using Node_nested_ind;
    intros path a; [done|].
  simpl. destruct (String.prefix "." name); [done|].
  revert a. induction IH as [|e es He _ IHes]; intros a; [done|].
  destruct e as [name' read'|name' entries'].
  - destruct (walk walkFn (join path (InfoName (FileNode name' read')))
                (FileNode name' read') a) as [a' [[|err]|]]; by try apply IHes.
  - simpl InfoName. destruct (String.prefix "." name') eqn:Eh.
    + rewrite IHes. simpl. by rewrite Eh.
    + specialize (He (join path name') a). simpl. rewrite Eh.
      simpl in He. rewrite Eh in He. rewrite He.
      match goal with
      | |- match ?t with _ => _ end = _ =>
          destruct t as [a' [[|err]|]]; by try apply IHes
      end.
Qed.

Lemma walk_readable (n : Node) (path : string)
    (codeFileData : gmap string codeFileDatum) :
  readable n = true ->
  match (walk walkFn path n codeFileData).2 with
  | Some (Fail _) => False
  | _ => True
  end.
Proof.
  revert path codeFileData.
  induction n as [name read|name entries IH] using Node_nested_ind;
    intros path a Hr.
  - simpl. destruct (extToLang !! Ext path); [|done].
    by destruct read.
  - simpl. destruct (String.prefix "." name); [done|]. simpl in Hr.
    revert a Hr. induction IH as [|e es He _ IHes]; intros a Hr; [done|].
    apply andb_prop in Hr as [Hre Hres].
    specialize (He (join path (InfoName e)) a Hre).
    destruct (walk walkFn (join path (InfoName e)) e a) as [a' [[|err]|]];
      simpl in He; [|done|by apply IHes].
    destruct (IsDir e); [by apply IHes|done].
Qed.

(** X4: If every file of the tree can be read the walk ends without an
    error. *)
Theorem gatherFileData_readable (w : World) :
  readable (root w) = true -> (gatherFileData w).2 = None.
Proof.
  intros Hr. unfold gatherFileData, Walk.
  pose proof (walk_readable (root w) "." ∅ Hr) as H.
  by destruct (walk walkFn "." (root w) ∅) as [cfd [[|err]|]].
Qed.

Lemma gatherFileData_readable_witness :
  (gatherFileData Fixture.externalRefWorld).2 = None.
Proof. apply gatherFileData_readable. reflexivity. Defined.

End InventoryFacts.

(** ** The counters of a file after the aggregation *)

Section AggregateFacts.

Import Err Unit Graph Filepath Plan Cli Spec Fixture.

(** X9: The aggregator as a whole: it adds no file to the inventory and drops
    none, leaves the line count and the language of every file alone, and
    adds to the counters of a file the numbers of the references, the valid
    references and the definitions that the loaded artifacts have in that
    file. *)
Theorem foldGraphData_folded (st : LoadState)
    (codeFileData : gmap string codeFileDatum) (file : string) :
  (forall f d, codeFileData !! f = Some d -> ints d) ->
  foldGraphData st codeFileData !! file =
    folded (defKeys st) (allRefs st) (allDefs st) file
      <$> codeFileData !! file.
Proof. apply foldGraphData_lookup. Qed.

(** The artifact of [externalRefWorld], loaded, over the one file it
    refers to and over a file it does not know. *)
Lemma foldGraphData_folded_witness :
  foldGraphData
    (loadRules (oneArtifact (decoded {| Defs := []; Refs := [externalRef] |}))
               planA initState).1
    {[ "a.go" := newDatum 2 "Go" ]} !! "a.go" =
    Some {| LoC := 2; NumRefs := 1; NumDefs := 0; NumRefsValid := 0;
            Language := "Go" |} /\
  foldGraphData
    (loadRules (oneArtifact (decoded {| Defs := []; Refs := [externalRef] |}))
               planA initState).1
    {[ "a.go" := newDatum 2 "Go" ]} !! "b.go" = None.
Proof.
  set (st := (loadRules (oneArtifact (decoded {| Defs := [];
                                                  Refs := [externalRef] |}))
                        planA initState).1).
  assert (forall f d,
            ({[ "a.go" := newDatum 2 "Go" ]} : gmap string codeFileDatum) !! f
              = Some d -> ints d) as Hints.
  { intros f d [_ <-]%lookup_singleton_Some.
    unfold ints, Int.InRange. simpl. lia. }
  split.
  - rewrite (foldGraphData_folded st _ "a.go" Hints). reflexivity.
  - rewrite (foldGraphData_folded st _ "b.go" Hints). reflexivity.
Defined.

(** X10: [coverage] up to the statistics: a file of the inventory ends with its
    line count, its language, and as counters the numbers of the references,
    the valid references and the definitions the artifacts have in it. *)
Theorem coverage_counts (w : World) (st : LoadState) (file : string)
    (datum : codeFileDatum) :
  (gatherFileData w).1 !! file = Some datum ->
  foldGraphData st (gatherFileData w).1 !! file =
    Some {| LoC := LoC datum;
            NumRefs :=
              countInt (List.filter (fun ref => String.eqb (File ref) file)
                                    (allRefs st));
            NumDefs :=
              countInt (List.filter (fun def => String.eqb (DefFile def) file)
                                    (allDefs st));
            NumRefsValid :=
              countInt (List.filter (validRef (defKeys st))
                          (List.filter (fun ref => String.eqb (File ref) file)
                                       (allRefs st)));
            Language := Language datum |}.
Proof.
  intros Hd. rewrite foldGraphData_lookup.
  - rewrite Hd. simpl. unfold folded, countInt.
    destruct (gatherFileData_fresh w file datum Hd) as (_ & -> & -> & ->).
    done.
  - intros f d Hf.
    destruct (gatherFileData_fresh w f d Hf) as (_ & Hr & Hdf & Hv).
    unfold ints, Int.InRange. rewrite Hr, Hdf, Hv. lia.
Qed.

Lemma coverage_counts_witness :
  foldGraphData
    (loadRules (oneArtifact (decoded {| Defs := []; Refs := [externalRef] |}))
               planA initState).1
    (gatherFileData externalRefWorld).1 !! "a.go" =
  Some {| LoC := 2; NumRefs := 1; NumDefs := 0; NumRefsValid := 0;
          Language := "Go" |}.
Proof.
  rewrite (coverage_counts externalRefWorld _ "a.go" (newDatum 2 "Go"));
    reflexivity.
Defined.

(** X11: As long as the number of references fits an [int], a file never has
    more valid references than references, and no counter is negative. *)
Theorem valid_le_refs (st : LoadState)
    (codeFileData : gmap string codeFileDatum) (file : string)
    (datum datum' : codeFileDatum) :
  Z.of_nat (length (allRefs st)) < 2 ^ 63 ->
  Z.of_nat (length (allDefs st)) < 2 ^ 63 ->
  codeFileData !! file = Some datum ->
  NumRefs datum = 0 -> NumDefs datum = 0 -> NumRefsValid datum = 0 ->
  (forall f d, codeFileData !! f = Some d -> ints d) ->
  foldGraphData st codeFileData !! file = Some datum' ->
  0 <= NumRefsValid datum' <= NumRefs datum' /\ 0 <= NumDefs datum'.
Proof.
  intros Hrefs Hdefs Hd Hr Hdf Hv Hints.
  rewrite foldGraphData_lookup, Hd by done. intros [= <-].
  unfold folded. simpl. rewrite Hr, Hdf, Hv. simpl.
  set (refsHere := List.filter _ (allRefs st)).
  set (defsHere := List.filter _ (allDefs st)).
  pose proof (filter_length_le (validRef (defKeys st)) refsHere).
  assert (length refsHere <= length (allRefs st))%nat
    by apply filter_length_le.
  assert (length defsHere <= length (allDefs st))%nat
    by apply filter_length_le.
  rewrite !wrap_small by (unfold Int.InRange; lia). lia.
Qed.

Lemma valid_le_refs_witness :
  exists datum',
    foldGraphData
      (loadRules (oneArtifact (decoded {| Defs := []; Refs := [externalRef] |}))
                 planA initState).1
      {[ "a.go" := newDatum 2 "Go" ]} !! "a.go" = Some datum' /\
    0 <= NumRefsValid datum' <= NumRefs datum' /\ 0 <= NumDefs datum'.
Proof.
  eexists. split; [reflexivity|].
  apply (valid_le_refs
           (loadRules (oneArtifact (decoded {| Defs := [];
                                               Refs := [externalRef] |}))
                      planA initState).1
           {[ "a.go" := newDatum 2 "Go" ]} "a.go" (newDatum 2 "Go"));
    try reflexivity.
  intros f d [_ <-]%lookup_singleton_Some.
  unfold ints, Int.InRange. simpl. lia.
Defined.

(** X12: Without a code file in the tree the report is empty, whatever the
    artifacts hold. *)
Theorem computeCoverage_no_files (st : LoadState) :
  computeCoverage (foldGraphData st ∅) = ∅.
Proof.
  assert (foldGraphData st ∅ = ∅) as ->.
  { apply map_eq. intros file. by rewrite foldGraphData_lookup. }
  unfold computeCoverage. by rewrite map_to_list_empty.
Qed.

End AggregateFacts.

(** ** What the loader has loaded *)

Section LoadedFacts.

Import Err Unit Graph Filepath Plan Cli Spec Fixture.

Lemma deref_app heap ps qs : deref heap (ps ++ qs) = deref heap ps ++ deref heap qs.
Proof. unfold deref. by rewrite omap_app. Qed.

Lemma deref_cons heap p ps :
  deref heap (p :: ps) =
    match heap !! p with
    | Some ref => ref :: deref heap ps
    | None => deref heap ps
    end.
Proof. done. Qed.

Lemma deref_old (h new : list Ref) (ps : list nat) :
  Forall (fun p => (p < length h)%nat) ps -> deref (h ++ new) ps = deref h ps.
Proof.
  induction 1 as [|p ps Hp _ IH]; [done|].
  by rewrite !deref_cons, lookup_app_l, IH by done.
Qed.

Lemma deref_new (h new : list Ref) :
  deref (h ++ new) (seq (length h) (length new)) = new.
Proof.
  revert h. induction new as [|r new IH]; intros h; [done|].
  simpl length. simpl seq.
  rewrite deref_cons, lookup_app_r, Nat.sub_diag by done. simpl. f_equal.
  specialize (IH (h ++ [r])). rewrite <- app_assoc in IH. simpl in IH.
  rewrite length_app in IH. simpl in IH.
  by rewrite Nat.add_1_r in IH.
Qed.

Lemma foldl_keys (u : SourceUnit) (keys : gset DefKey) (defs : list Def) :
  foldl (fun keys def => {[ adjustDefKey (Key def) u ]} ∪ keys) keys defs =
    keys ∪ list_to_set ((fun def => adjustDefKey (Key def) u) <$> defs).
Proof.
  revert keys. induction defs as [|def defs IH]; intros keys; simpl.
  - by rewrite (right_id_L ∅ (∪)).
  - by rewrite IH, (comm_L (∪) {[ _ ]} keys), <- (assoc_L (∪)).
Qed.

(** An artifact that decodes: its references are stored behind what the
    store held and normalized there, its definitions give their keys, and
    nothing is logged. *)
Lemma parseGraphData_inr bdfs graphFile u st v :
  readJSONFileFS bdfs graphFile = inr v ->
  parseGraphData bdfs graphFile u st =
    ({| heap := heap st ++ (normalized u <$> Refs v);
        defKeys :=
          defKeys st
            ∪ list_to_set ((fun def => adjustDefKey (Key def) u) <$> Defs v);
        data := data st ++ [ {| iDefs := Defs v;
                                iRefs := seq (length (heap st))
                                             (length (Refs v)) |} ];
        log := log st |}, None).
Proof.
  intros Hr. unfold parseGraphData. rewrite Hr. simpl.
  by rewrite normalizeRef_new, foldl_keys.
Qed.

Lemma allRefs_addLog st line : allRefs (addLog st line) = allRefs st.
Proof. done. Qed.

Lemma bounded_allRefs (h new : list Ref) (items : list Item) :
  Forall (fun item => Forall (fun p => (p < length h)%nat) (iRefs item)) items ->
  flat_map (fun item => deref (h ++ new) (iRefs item)) items =
    flat_map (fun item => deref h (iRefs item)) items.
Proof.
  induction 1 as [|item items Hi _ IH]; [done|].
  simpl. by rewrite deref_old, IH.
Qed.

Lemma parseGraphData_step bdfs graphFile u st st' :
  parseGraphData bdfs graphFile u st = (st', None) ->
  bounded st ->
  bounded st' /\
  allRefs st' = allRefs st ++ loadedRefs bdfs (graphFile, u) /\
  allDefs st' = allDefs st ++ loadedDefs bdfs (graphFile, u) /\
  defKeys st' = defKeys st ∪ list_to_set (loadedKeys bdfs (graphFile, u)) /\
  log st' = log st ++ loadedLog bdfs (graphFile, u).
Proof.
  intros Hp Hb. unfold loadedKeys, loadedRefs, loadedDefs, loadedLog.
  simpl. destruct (readJSONFileFS bdfs graphFile) as [err|v] eqn:Hr.
  - unfold parseGraphData in Hp. rewrite Hr in Hp.
    destruct (decide (err = errEmptyJSONFile)).
    + injection Hp as <-. rewrite !app_nil_r. simpl.
      repeat split; [done|by rewrite (right_id_L ∅ (∪))].
    + destruct (IsNotExist err); [|done].
      injection Hp as <-. rewrite !app_nil_r. simpl.
      repeat split; [done|by rewrite (right_id_L ∅ (∪))].
  - rewrite (parseGraphData_inr _ _ _ _ _ Hr) in Hp. injection Hp as <-.
    unfold bounded, allRefs, allDefs. simpl.
    rewrite !flat_map_app. simpl. rewrite !app_nil_r.
    repeat split.
    + apply Forall_app. split.
      * eapply Forall_impl; [exact Hb|]. intros item Hi. simpl in Hi.
        eapply Forall_impl; [exact Hi|]. intros p Hlt. simpl in Hlt.
        rewrite length_app. lia.
      * constructor; [|done]. simpl. apply Forall_forall. intros p Hin.
        apply elem_of_seq in Hin. rewrite length_app, length_fmap. lia.
    + rewrite bounded_allRefs by exact Hb. f_equal.
      rewrite <- (length_fmap (normalized u) (Refs v)). apply deref_new.
Qed.

Lemma parseTargets_step bdfs ts : forall st st',
  parseTargets bdfs ts st = (st', None) ->
  bounded st ->
  bounded st' /\
  allRefs st' = allRefs st ++ flat_map (loadedRefs bdfs) ts /\
  allDefs st' = allDefs st ++ flat_map (loadedDefs bdfs) ts /\
  defKeys st' = defKeys st ∪ list_to_set (flat_map (loadedKeys bdfs) ts) /\
  log st' = log st ++ flat_map (loadedLog bdfs) ts.
Proof.
  induction ts as [|[target u] ts IH]; intros st st' Hp Hb; simpl in *.
  - injection Hp as <-. rewrite !app_nil_r. repeat split; [done|by rewrite (right_id_L ∅ (∪))].
  - destruct (parseGraphData bdfs target u st) as [st1 [err|]] eqn:Hg;
      [done|].
    destruct (parseGraphData_step _ _ _ _ _ Hg Hb)
      as (Hb1 & Hr1 & Hd1 & Hk1 & Hl1).
    destruct (IH _ _ Hp Hb1) as (Hb2 & Hr2 & Hd2 & Hk2 & Hl2).
    rewrite Hr2, Hd2, Hk2, Hl2, Hr1, Hd1, Hk1, Hl1, <- !app_assoc.
    repeat split; [done|].
    by rewrite list_to_set_app_L, (assoc_L (∪)).
Qed.

(** X5: When the loop over the rules ends without an error, what it leaves is
    what the artifacts hold, in the order of the rules: their references,
    normalized, their definitions, the keys of these, and one warning for
    each artifact whose reading answers [errEmptyJSONFile] or the error of
    a missing file. *)
Theorem loadRules_loaded (bdfs : FileSystem) (rules : list Rule)
    (st : LoadState) :
  loadRules bdfs rules initState = (st, None) ->
  allRefs st = flat_map (loadedRefs bdfs) (flat_map ruleTargets rules) /\
  allDefs st = flat_map (loadedDefs bdfs) (flat_map ruleTargets rules) /\
  defKeys st =
    list_to_set (flat_map (loadedKeys bdfs) (flat_map ruleTargets rules)) /\
  log st = flat_map (loadedLog bdfs) (flat_map ruleTargets rules).
Proof.
  rewrite loadRules_flat. intros Hp.
  destruct (parseTargets_step _ _ _ _ Hp) as (_ & Hr & Hd & Hk & Hl);
    [by constructor|].
  rewrite Hr, Hd, Hk, Hl. repeat split. apply (left_id_L ∅ (∪)).
Qed.

Lemma loadRules_loaded_witness :
  allRefs (loadRules (oneArtifact (decoded {| Defs := [];
                                              Refs := [externalRef] |}))
                     planA initState).1 =
    [ {| DefRepo := ""; DefUnitType := "GoPackage"; DefUnit := "y";
         DefPath := "F"; File := "a.go" |} ].
Proof.
  destruct (loadRules_loaded
              (oneArtifact (decoded {| Defs := []; Refs := [externalRef] |}))
              planA
              (loadRules (oneArtifact (decoded {| Defs := [];
                                                  Refs := [externalRef] |}))
                         planA initState).1)
    as (Hr & _); [reflexivity|].
  rewrite Hr. reflexivity.
Defined.

Lemma parseTargets_fatal bdfs ts : forall st,
  (parseTargets bdfs ts st).2 = None <-> forallb (fun t => negb (fatal bdfs t)) ts = true.
Proof.
  induction ts as [|[target u] ts IH]; intros st; simpl; [done|].
  unfold fatal at 1, parseGraphData. simpl.
  destruct (readJSONFileFS bdfs target) as [err|v].
  - destruct (decide (err = errEmptyJSONFile)) as [He|He].
    + rewrite bool_decide_eq_true_2 by done. simpl. apply IH.
    + rewrite bool_decide_eq_false_2 by done. simpl.
      destruct (IsNotExist err); simpl; [apply IH|done].
  - simpl. apply IH.
Qed.

(** X6: The loop over the rules ends without an error exactly when no
    artifact of the rules fails to be read with an error other than
    [errEmptyJSONFile] and the error of a missing file. *)
Theorem loadRules_succeeds_iff (bdfs : FileSystem) (rules : list Rule)
    (st : LoadState) :
  (loadRules bdfs rules st).2 = None <->
  forallb (fun t => negb (fatal bdfs t)) (flat_map ruleTargets rules) = true.
Proof. rewrite loadRules_flat. apply parseTargets_fatal. Qed.

(** X7: The rules are loaded one after the other, and a failure ends the
    loading: the rules after it are not looked at. *)
Theorem loadRules_app (bdfs : FileSystem) (pre post : list Rule)
    (st : LoadState) :
  loadRules bdfs (pre ++ post) st =
    match loadRules bdfs pre st with
    | (st', Some err) => (st', Some err)
    | (st', None) => loadRules bdfs post st'
    end.
Proof.
  rewrite !loadRules_flat, flat_map_app, parseTargets_app.
  destruct (parseTargets bdfs (flat_map ruleTargets pre) st) as [st' [err|]];
    [done|]. by rewrite loadRules_flat.
Qed.

Lemma parseGraphData_norepo bdfs graphFile u st :
  set_Forall (fun k => Repo k = "") (defKeys st) ->
  set_Forall (fun k => Repo k = "")
             (defKeys (parseGraphData bdfs graphFile u st).1).
Proof.
  intros Hk. destruct (readJSONFileFS bdfs graphFile) as [err|v] eqn:Hr.
  - unfold parseGraphData. rewrite Hr.
    destruct (decide _); [done|]. by destruct (IsNotExist err).
  - rewrite (parseGraphData_inr _ _ _ _ _ Hr). simpl.
    apply set_Forall_union; [done|]. intros k Hin.
    apply elem_of_list_to_set, list_elem_of_fmap in Hin as (def & -> & _).
    by rewrite adjustDefKey_fields.
Qed.

(** X8: Every key the loader stores has an empty repository, whether the
    loading ends with an error or not. *)
Theorem loadRules_norepo (bdfs : FileSystem) (rules : list Rule) (k : DefKey) :
  k ∈ defKeys (loadRules bdfs rules initState).1 -> Repo k = "".
Proof.
  rewrite loadRules_flat.
  assert (forall ts st, set_Forall (fun k => Repo k = "") (defKeys st) ->
            set_Forall (fun k => Repo k = "")
                       (defKeys (parseTargets bdfs ts st).1)) as H.
  { induction ts as [|[target u] ts IH]; intros st Hst; [done|]. simpl.
    pose proof (parseGraphData_norepo bdfs target u st Hst) as H1.
    destruct (parseGraphData bdfs target u st) as [st1 [err|]]; [done|].
    by apply IH. }
  apply (H _ initState). apply set_Forall_empty.
Qed.

Lemma loadRules_norepo_witness :
  Repo (adjustDefKey keyF unitA) = "".
Proof.
  apply (loadRules_norepo
           (oneArtifact (decoded {| Defs := [ {| Key := keyF;
                                                 DefFile := "a.go" |} ];
                                    Refs := [] |}))
           planA).
  vm_compute. reflexivity.
Defined.

End LoadedFacts.

(** ** The helpers of the command line *)

Section UtilFacts.

Import Err Unit Graph Plan Cli Util Fixture.

Lemma Index_range (s : string) (sep : ascii) :
  Index s sep = -1 \/ 0 <= Index s sep < Z.of_nat (String.length s).
Proof.
  induction s as [|x r IH]; [by left|]. cbn [Index String.length].
  destruct (Ascii.eqb x sep); [right; lia|].
  destruct IH as [->|IH]; [by left|]. right.
  destruct (Index r sep =? -1) eqn:E; lia.
Qed.

Lemma append_cons (x : ascii) (a b : string) :
  (String x a ++ b)%string = String x (a ++ b)%string.
Proof. done. Qed.

Lemma append_nil (b : string) : (EmptyString ++ b)%string = b.
Proof. done. Qed.

Lemma substring_all (s : string) : substring 0 (String.length s) s = s.
Proof. induction s as [|x r IH]; [done|]. simpl. by rewrite IH. Qed.

(** The text before the first separator, the separator and the text after
    it make up the string, and the text before has no separator. *)
Lemma Index_cut (s : string) (sep : ascii) :
  Index s sep <> -1 ->
  s = (substring 0 (Z.to_nat (Index s sep)) s
       ++ String sep
            (substring (S (Z.to_nat (Index s sep)))
                       (String.length s - S (Z.to_nat (Index s sep))) s))%string
  /\ Index (substring 0 (Z.to_nat (Index s sep)) s) sep = -1.
Proof.
  induction s as [|x r IH]; [done|]. cbn [Index].
  destruct (Ascii.eqb x sep) eqn:Ex.
  - intros _. apply Ascii.eqb_eq in Ex as ->.
    change (Z.to_nat 0) with 0%nat. simpl.
    by rewrite Nat.sub_0_r, substring_all.
  - destruct (Index r sep =? -1) eqn:E; [done|]. intros _.
    apply Z.eqb_neq in E. specialize (IH E) as [IH1 IH2].
    destruct (Index_range r sep) as [?|Hr]; [done|].
    replace (Z.to_nat (Index r sep + 1)) with (S (Z.to_nat (Index r sep)))
      by lia.
    cbn [substring String.length Nat.sub]. split.
    + rewrite append_cons. f_equal. exact IH1.
    + cbn [Index]. by rewrite Ex, IH2.
Qed.

(** X25: [parseRepoAndCommitID] cuts at the first [@]: the URI has none, and
    the URI, an [@] and the commit ID make up the argument; without an [@]
    the argument is the URI and the commit ID is empty. *)
Theorem parseRepoAndCommitID_cut (repoAndCommitID : string) :
  Z.of_nat (String.length repoAndCommitID) < 2 ^ 63 ->
  let '(uri, commitID) := parseRepoAndCommitID repoAndCommitID in
  Index uri "@" = -1 /\
  if Index repoAndCommitID "@" =? -1
  then uri = repoAndCommitID /\ commitID = ""%string
  else repoAndCommitID = (uri ++ "@" ++ commitID)%string.
Proof.
  intros Hlen. unfold parseRepoAndCommitID.
  destruct (Index repoAndCommitID "@" =? -1) eqn:E; simpl.
  - by apply Z.eqb_eq in E.
  - apply Z.eqb_neq in E.
    destruct (Index_range repoAndCommitID "@") as [?|Hr]; [done|].
    destruct (Index_cut repoAndCommitID "@" E) as [Hcut Hnone].
    unfold Int.add. rewrite wrap_small by (unfold Int.InRange; lia).
    replace (Z.to_nat (Index repoAndCommitID "@" + 1))
      with (S (Z.to_nat (Index repoAndCommitID "@"))) by lia.
    split; [exact Hnone|exact Hcut].
Qed.

Lemma parseRepoAndCommitID_cut_witness :
  parseRepoAndCommitID "example.com/repo@myrev" = ("example.com/repo", "myrev")%string
  /\ Index "example.com/repo" "@" = -1.
Proof.
  pose proof (parseRepoAndCommitID_cut "example.com/repo@myrev"
                ltac:(simpl; lia)) as H.
  split; [reflexivity|]. exact (proj1 H).
Defined.

(** X26: [parseRepoAndCommitID] undoes the joining of a URI without [@] and a
    commit ID. *)
Theorem parseRepoAndCommitID_join (uri commitID : string) :
  Z.of_nat (String.length (uri ++ "@" ++ commitID)) < 2 ^ 63 ->
  Index uri "@" = -1 ->
  parseRepoAndCommitID (uri ++ "@" ++ commitID) = (uri, commitID).
Proof.
  intros Hlen Hnone.
  assert (Hi : Index (uri ++ "@" ++ commitID) "@"
               = Z.of_nat (String.length uri)).
  { clear Hlen. induction uri as [|x r IH]; [done|].
    rewrite append_cons. cbn [Index String.length] in *.
    destruct (Ascii.eqb x "@"); [done|].
    destruct (Index r "@" =? -1) eqn:E;
      [|destruct (Index_range r "@"); lia].
    apply Z.eqb_eq in E. rewrite (IH E).
    destruct (Z.of_nat (String.length r) =? -1) eqn:E2; lia. }
  unfold parseRepoAndCommitID. rewrite Hi.
  assert (String.length (uri ++ "@" ++ commitID)
          = (String.length uri + S (String.length commitID))%nat) as Hl.
  { clear. induction uri as [|x r IH]; [done|].
    rewrite append_cons. cbn [String.length]. by rewrite IH. }
  rewrite Hl in *.
  destruct (Z.of_nat (String.length uri) =? -1) eqn:E; [lia|]. simpl negb.
  cbv iota. unfold Int.add.
  rewrite wrap_small by (unfold Int.InRange; lia).
  replace (Z.to_nat (Z.of_nat (String.length uri) + 1))
    with (S (String.length uri)) by lia.
  rewrite Nat2Z.id.
  replace (String.length uri + S (String.length commitID) - S (String.length uri))%nat
    with (String.length commitID) by lia.
  clear. f_equal.
  - induction uri as [|x r IH]; [done|].
    rewrite append_cons. cbn [substring String.length]. by rewrite IH.
  - induction uri as [|x r IH]; [apply substring_all|].
    rewrite append_cons. exact IH.
Qed.

Lemma parseRepoAndCommitID_join_witness :
  parseRepoAndCommitID ("example.com/repo" ++ "@" ++ "myrev") =
    ("example.com/repo", "myrev")%string.
Proof.
  apply parseRepoAndCommitID_join; [simpl; lia|reflexivity].
Defined.

(** X23: A unit matches the arguments when there are none, or when its ID or
    its name is one of them. *)
Theorem SourceUnitMatchesArgs_spec (ID : SourceUnit -> string)
    (specified : list string) (u : SourceUnit) :
  SourceUnitMatchesArgs ID specified u = true <->
  specified = [] \/ ID u ∈ specified \/ Name u ∈ specified.
Proof.
  assert (forall l, matchLoop ID l u = true <-> ID u ∈ l \/ Name u ∈ l) as Hl.
  { induction l as [|x l IH]; simpl.
    - split; [done|]. intros [H|H]; by apply elem_of_nil in H.
    - destruct (String.eqb (ID u) x) eqn:E1; simpl.
      + apply String.eqb_eq in E1 as <-. split; [|done]. intros _. left.
        apply list_elem_of_here.
      + destruct (String.eqb (Name u) x) eqn:E2.
        * apply String.eqb_eq in E2 as <-. split; [|done]. intros _. right.
          apply list_elem_of_here.
        * apply String.eqb_neq in E1, E2. rewrite IH, !elem_of_cons.
          tauto. }
  unfold SourceUnitMatchesArgs. destruct specified as [|s0 rest].
  - split; [by left|done].
  - change (length (s0 :: rest) =? 0)%nat with false. cbv iota.
    rewrite Hl. split; [by right|]. by intros [?|?].
Qed.

End UtilFacts.

(** ** Quotients and percentages *)

Section ScoreFacts.

Import Err Unit Graph Filepath Plan Cli Util Fixture F64.

(** Rounding a positive mantissa above the smallest exponent keeps the
    sign and does not lower the exponent. *)
Lemma binary_round_aux_exp s p e l :
  emin 53 1024 <= e ->
  match binary_round_aux 53 1024 s (Zpos p) e l with
  | S754_finite s' _ e' => s' = s /\ e <= e'
  | S754_infinity s' => s' = s
  | _ => False
  end.
Proof.
  intros He. unfold binary_round_aux.
  pose proof (shr_fexp_pos p e l He) as [Hm1 He1].
  destruct (shr_fexp 53 1024 (Zpos p) e l) as [mrs' e'].
  simpl in Hm1, He1.
  pose proof (round_nearest_even_pos (shr_m mrs') (loc_of_shr_record mrs') Hm1)
    as Hr.
  destruct (round_nearest_even (shr_m mrs') (loc_of_shr_record mrs'))
    as [|q|q]; try lia.
  pose proof (shr_fexp_pos q e' loc_Exact ltac:(lia)) as [Hm2 He2].
  destruct (shr_fexp 53 1024 (Zpos q) e' loc_Exact) as [mrs'' e''].
  simpl in Hm2, He2. destruct (shr_m mrs''); try lia.
  destruct (e'' <=? 1024 - 53); [split; [done|lia]|done].
Qed.

(** The conversion of an integer other than zero has the sign of the
    integer, and an exponent of -52 at least. *)
Lemma of_int_nonzero n :
  n <> 0 ->
  match of_int n with
  | S754_finite s _ e => s = (n <? 0) /\ -52 <= e
  | S754_infinity s => s = (n <? 0)
  | _ => False
  end.
Proof.
  intros Hn.
  assert (forall s p,
    match binary_round 53 1024 s p 0 with
    | S754_finite s' _ e => s' = s /\ -52 <= e
    | S754_infinity s' => s' = s
    | _ => False
    end) as H.
  { intros s p. unfold binary_round, shl_align.
    set (e' := fexp 53 1024 (Zpos (digits2_pos p) + 0)).
    assert (He' : -52 <= e') by (unfold e', fexp, emin; lia).
    destruct (e' - 0) eqn:E;
      match goal with
      | |- context [binary_round_aux 53 1024 s (Zpos ?q) ?e loc_Exact] =>
          pose proof (binary_round_aux_exp s q e loc_Exact
                        ltac:(unfold emin; lia)) as Hx;
          destruct (binary_round_aux 53 1024 s (Zpos q) e loc_Exact);
            [done|done|done|]; destruct Hx; split; [done|lia]
      end. }
  destruct n as [|p|p]; [by destruct Hn| |]; apply H.
Qed.

(** X24: [percent] over zero: not a number for zero, and else the infinity of
    the sign of the numerator. *)
Theorem percent_zero_denom (num : Z) :
  percent num 0 =
    if num =? 0 then S754_nan else S754_infinity (num <? 0).
Proof.
  unfold percent. destruct (num =? 0) eqn:E.
  - apply Z.eqb_eq in E as ->. reflexivity.
  - apply Z.eqb_neq in E. pose proof (of_int_nonzero num E) as H.
    destruct (of_int num) as [| s | |s m e]; try done.
    + subst. by destruct (num <? 0).
    + destruct H as [-> He]. unfold lit_100, SFmul.
      pose proof (binary_round_aux_exp (xorb false (num <? 0))
                    (7036874417766400 * m) (-46 + e) loc_Exact
                    ltac:(unfold emin; lia)) as Hx.
      destruct (binary_round_aux 53 1024 (xorb false (num <? 0))
                  (Zpos (7036874417766400 * m)) (-46 + e) loc_Exact)
        as [| s' | |s' m' e']; try done.
      * subst. by destruct (num <? 0).
      * destruct Hx as [-> _]. by destruct (num <? 0).
Qed.

(** X17: No score of a language is ever not a number. *)
Theorem toCoverage_never_nan (s : langStats) :
  IsNaN (FileScore (toCoverage s)) = false /\
  IsNaN (RefScore (toCoverage s)) = false /\
  IsNaN (TokDensity (toCoverage s)) = false.
Proof. repeat split; by apply divideSentinel_not_nan. Qed.

(** X16: A file with no definition and no valid reference fails the test of
    the per-file decision, whatever its number of lines. *)
Theorem fileCovered_no_tokens (datum : codeFileDatum) :
  NumDefs datum = 0 -> NumRefsValid datum = 0 -> fileCovered datum = false.
Proof.
  unfold fileCovered. intros -> ->.
  change (of_int (Int.add 0 0)) with (S754_zero false).
  by destruct (of_int (LoC datum)) as [[]|[]| |[] m e].
Qed.

Lemma fileCovered_no_tokens_witness :
  fileCovered (newDatum 2 "Go") = false.
Proof. apply fileCovered_no_tokens; reflexivity. Defined.

(** X1: The table of the extensions is the table of the languages turned
    round: an extension has the language that lists it. *)
Theorem extToLang_spec (ext lang : string) :
  extToLang !! ext = Some lang <->
  exists exts, (lang, exts) ∈ langToExts /\ ext ∈ exts.
Proof.
  set (pairs := flat_map (fun '(lang, exts) => map (fun ext : string => (ext, lang)) exts)
                         langToExts).
  assert (extToLang = list_to_map pairs) as -> by by vm_compute.
  assert (NoDup pairs.*1) as Hnd
    by (apply (bool_decide_unpack _); by vm_compute).
  rewrite <- (elem_of_list_to_map _ _ _ Hnd).
  unfold pairs. rewrite list_elem_of_In, in_flat_map. split.
  - intros ([lang' exts] & Hin & Hp). apply in_map_iff in Hp as (e & [= -> ->] & He).
    exists exts. by rewrite !list_elem_of_In.
  - intros (exts & Hin & He). exists (lang, exts).
    rewrite <- list_elem_of_In. split; [done|].
    apply in_map_iff. exists ext. by rewrite <- list_elem_of_In.
Qed.

End ScoreFacts.

(** ** More on stripping and counting *)

Section StripMore.

Import Scanner Bytes Err Unit Graph Cli Fixture.

Lemma strip_sublist_upto k : forall l,
  (length l <= k)%nat -> strip l `sublist_of` l.
Proof.
  induction k as [|k IH]; intros l Hk.
  - destruct l; [done|simpl in Hk; lia].
  - rewrite strip_eq. destruct (scanAt l) as [[tok w] n] eqn:E.
    destruct (isEOF tok) eqn:Etok; [done|].
    pose proof (scanAt_le _ _ _ _ E). pose proof (scanAt_pos _ _ _ _ E Etok).
    assert ((if isComment tok then take w l else take (w + n) l)
              ++ strip (drop (w + n) l)
            `sublist_of` take (w + n) l ++ drop (w + n) l) as Hs.
    { apply sublist_app.
      - destruct (isComment tok); [|done].
        replace (take w l) with (take w (take (w + n) l)); [apply sublist_take|].
        rewrite take_take. f_equal. lia.
      - apply IH. rewrite length_drop. lia. }
    by rewrite take_drop in Hs.
Qed.

(** X18: The stripper only removes: what it returns is the text with some
    bytes left out, in their order. *)
Theorem stripComments_sublist (data : list byte) :
  stripComments data `sublist_of` data.
Proof. rewrite stripComments_strip. by apply (strip_sublist_upto (length data)). Qed.

Lemma scanToken_comment l n :
  scanToken l = (Comment, n) -> exists r, l = "/"%byte :: r.
Proof.
  unfold scanToken. destruct l as [|ch r]; [done|].
  destruct (Byte.eqb ch "/") eqn:Es.
  - apply byte_dec_bl in Es as ->. eauto.
  - repeat case_match; done.
Qed.

Lemma strip_no_slash_upto k : forall l,
  (length l <= k)%nat -> Forall (fun ch => ch <> "/"%byte) l -> strip l = l.
Proof.
  induction k as [|k IH]; intros l Hk Hl.
  - destruct l; [done|simpl in Hk; lia].
  - rewrite strip_eq. destruct (scanAt l) as [[tok w] n] eqn:E.
    destruct (isEOF tok) eqn:Etok; [done|].
    pose proof (scanAt_le _ _ _ _ E). pose proof (scanAt_pos _ _ _ _ E Etok).
    destruct (isComment tok) eqn:Ec.
    + destruct tok; try done.
      destruct (scanToken_comment _ _ (scanAt_token _ _ _ _ E)) as [r Hr].
      pose proof (Forall_drop _ w _ Hl) as Hd. rewrite Hr in Hd.
      by apply Forall_cons in Hd as [? _].
    + rewrite IH; [apply take_drop| |by apply Forall_drop].
      rewrite length_drop. lia.
Qed.

(** X19: A text without a slash has no comment and is left as it is. *)
Theorem stripComments_no_slash (data : list byte) :
  Forall (fun ch => ch <> "/"%byte) data -> stripComments data = data.
Proof.
  intros H. rewrite stripComments_strip.
  by apply (strip_no_slash_upto (length data)).
Qed.

Lemma stripComments_no_slash_witness :
  stripComments (bytes ("x := 1" ++ nl ++ "y")) = bytes ("x := 1" ++ nl ++ "y").
Proof.
  apply stripComments_no_slash. vm_compute.
  repeat (constructor; [discriminate|]). constructor.
Defined.

Lemma terminatedLines_nonneg l seen : 0 <= terminatedLines l seen.
Proof.
  revert seen. induction l as [|x r IH]; intros seen; simpl; [lia|].
  destruct (Byte.eqb x x0a); [|apply IH].
  specialize (IH false). destruct seen; lia.
Qed.

(** X20: The count is zero only when nothing is left of the text once the
    comments are stripped: the first line counts even when it is blank. *)
Theorem numLines_zero_iff (data : list byte) :
  Z.of_nat (length (stripComments data)) < 2 ^ 62 ->
  numLines data = 0 <-> stripComments data = [].
Proof.
  intros Hlen. rewrite (numLines_count data Hlen).
  destruct (stripComments data) as [|x r] eqn:E; [done|].
  pose proof (terminatedLines_nonneg (x :: r) false). split; [lia|done].
Qed.

Lemma numLines_zero_iff_witness :
  numLines (bytes "// nothing") = 0 <-> stripComments (bytes "// nothing") = [].
Proof. apply numLines_zero_iff. vm_compute. reflexivity. Defined.

Lemma terminatedLines_blank l :
  Forall (fun ch => IsSpace ch = true) l -> terminatedLines l false = 0.
Proof.
  induction 1 as [|x r Hx _ IH]; simpl; [done|].
  rewrite Hx. simpl. by destruct (Byte.eqb x x0a).
Qed.

(** X21: A text of white space alone, however many lines it has, counts as one
    line. *)
Theorem numLines_blank (data : list byte) :
  Z.of_nat (length data) < 2 ^ 62 ->
  data <> [] ->
  Forall (fun ch => IsSpace ch = true) data ->
  numLines data = 1.
Proof.
  intros Hlen Hne Hsp.
  assert (stripComments data = data) as Hs.
  { rewrite stripComments_strip. apply (strip_no_slash_upto (length data));
      [done|].
    eapply Forall_impl; [exact Hsp|]. by intros ch Hch ->. }
  rewrite numLines_count by by rewrite Hs.
  rewrite Hs. destruct data as [|x r]; [done|].
  by rewrite terminatedLines_blank.
Qed.

Lemma numLines_blank_witness :
  numLines (bytes (nl ++ " " ++ nl ++ nl)) = 1.
Proof.
  apply numLines_blank; [vm_compute; reflexivity|discriminate|].
  vm_compute. repeat (constructor; [reflexivity|]). constructor.
Defined.

(** X22: Two keys that differ in their repositories alone are normalized to
    the same key. *)
Theorem adjustDefKey_repo_blind (k1 k2 : DefKey) (u : SourceUnit) :
  UnitType k1 = UnitType k2 -> Graph.Unit k1 = Graph.Unit k2 ->
  Path k1 = Path k2 ->
  adjustDefKey k1 u = adjustDefKey k2 u.
Proof. rewrite !adjustDefKey_fields. by intros -> -> ->. Qed.

Lemma adjustDefKey_repo_blind_witness :
  adjustDefKey {| Repo := "github.com/x/y"; UnitType := ""; Unit := "";
                  Path := "F" |} unitA
  = adjustDefKey keyF unitA.
Proof. apply adjustDefKey_repo_blind; reflexivity. Defined.

End StripMore.

(** ** The defaults of the options *)

Section DefaultFacts.

Import Err Src RepoOpt Fixture.

Variable Env : Type.
Variable OpenRepo : string -> Env -> option Repo * option error.
Variable Group : Type.
Variable SetOptionDefaultValue : Group -> string -> string -> Group.
Variable URI : Repo -> string.
Variable Getwd : Env -> error + string.
Variable Rel : string -> string -> string.

(** X27: With caching off [openLocalRepo] does not assign [localRepo], which the
    three functions read: each of them opens the repository and then sets
    no default. *)
Theorem setDefaults_uncached (env : Env) (st : Pkg) (g : Group) :
  CacheLocalRepo st = false -> localRepo st = None ->
  setDefaultRepoURIOpt Env OpenRepo Group SetOptionDefaultValue URI env st g
    = (st, g, 1%nat) /\
  setDefaultCommitIDOpt Env OpenRepo Group SetOptionDefaultValue env st g
    = (st, g, 1%nat) /\
  setDefaultRepoSubdirOpt Env OpenRepo Group SetOptionDefaultValue Getwd Rel
      env st g
    = Some (st, g, 1%nat).
Proof.
  intros Hc Hr.
  unfold setDefaultRepoURIOpt, setDefaultCommitIDOpt, setDefaultRepoSubdirOpt,
    openLocalRepo.
  rewrite Hc. simpl. by rewrite Hr.
Qed.

(** X28: With caching on and a repository stored, the three functions take
    their values from the stored repository and do not open it again,
    wherever the process stands by then. *)
Theorem setDefaults_stored (env : Env) (st : Pkg) (g : Group) (r : Repo) :
  CacheLocalRepo st = true -> localRepo st = Some r ->
  setDefaultRepoURIOpt Env OpenRepo Group SetOptionDefaultValue URI env st g
    = (st,
       if String.eqb (CloneURL r) "" then g
       else SetOptionDefaultValue g "repo" (URI r),
       0%nat) /\
  setDefaultCommitIDOpt Env OpenRepo Group SetOptionDefaultValue env st g
    = (st,
       if String.eqb (CommitID r) "" then g
       else SetOptionDefaultValue g "commit" (CommitID r),
       0%nat) /\
  setDefaultRepoSubdirOpt Env OpenRepo Group SetOptionDefaultValue Getwd Rel
      env st g
    = match Getwd env with
      | inl _ => None
      | inr absDir =>
          Some (st, SetOptionDefaultValue g "subdir" (Rel (RootDir r) absDir),
                0%nat)
      end.
Proof.
  intros Hc Hr.
  unfold setDefaultRepoURIOpt, setDefaultCommitIDOpt, setDefaultRepoSubdirOpt,
    openLocalRepo.
  rewrite Hc, Hr. simpl. rewrite Hr.
  repeat split.
  - by destruct (String.eqb (CloneURL r) "").
  - by destruct (String.eqb (CommitID r) "").
Qed.

(** X29: The first of the functions to run in a fresh process opens the
    repository; if there is one, its clone URL decides whether the default
    of [repo] is set, and the repository is stored for the functions that
    follow. *)
Theorem setDefaultRepoURIOpt_first (env : Env) (g : Group) (r : Repo)
    (e : option error) :
  OpenRepo "." env = (Some r, e) ->
  setDefaultRepoURIOpt Env OpenRepo Group SetOptionDefaultValue URI env
      initPkg g
    = ({| localRepo := Some r; localRepoErr := e; CacheLocalRepo := true |},
       if String.eqb (CloneURL r) "" then g
       else SetOptionDefaultValue g "repo" (URI r),
       1%nat).
Proof.
  intros Ho. unfold setDefaultRepoURIOpt, openLocalRepo. simpl.
  rewrite Ho. simpl. by destruct (String.eqb (CloneURL r) "").
Qed.

(** X30: [setDefaultRepoSubdirOpt] ends the process exactly when there is a
    repository and the working directory cannot be told. *)
Theorem setDefaultRepoSubdirOpt_fatal (env : Env) (st : Pkg) (g : Group) :
  setDefaultRepoSubdirOpt Env OpenRepo Group SetOptionDefaultValue Getwd Rel
      env st g = None
  <->
  is_Some (localRepo (openLocalRepo Env OpenRepo env st).1.2) /\
  exists err, Getwd env = inl err.
Proof.
  unfold setDefaultRepoSubdirOpt.
  destruct (openLocalRepo Env OpenRepo env st) as [[res st'] k]. simpl.
  destruct (localRepo st') as [r|].
  - destruct (Getwd env) as [err|absDir].
    + split; [eauto|done].
    + split; [done|]. by intros [_ [err ?]].
  - split; [done|]. by intros [[? ?] _].
Qed.

End DefaultFacts.

Section DefaultExamples.

Import Err Src RepoOpt Fixture.

Lemma setDefaults_uncached_witness :
  setDefaultCommitIDOpt string openHere (list (string * string))
      (fun g name value => (name, value) :: g) "/repo"
      {| localRepo := None; localRepoErr := None; CacheLocalRepo := false |} []
  = ({| localRepo := None; localRepoErr := None; CacheLocalRepo := false |},
     [], 1%nat).
Proof.
  apply (setDefaults_uncached string openHere (list (string * string))
           (fun g name value => (name, value) :: g) CloneURL
           (fun env => inr env) (fun _ dir => dir) "/repo"
           {| localRepo := None; localRepoErr := None;
              CacheLocalRepo := false |} []); reflexivity.
Defined.

Lemma setDefaults_stored_witness :
  setDefaultRepoSubdirOpt string openHere (list (string * string))
      (fun g name value => (name, value) :: g) (fun env => inr env)
      (fun _ dir => dir) "/elsewhere"
      {| localRepo := Some {| RootDir := "/repo"; CloneURL := "";
                              CommitID := "abc" |};
         localRepoErr := None; CacheLocalRepo := true |} []
  = Some ({| localRepo := Some {| RootDir := "/repo"; CloneURL := "";
                                  CommitID := "abc" |};
             localRepoErr := None; CacheLocalRepo := true |},
          [("subdir", "/elsewhere")], 0%nat).
Proof.
  apply (setDefaults_stored string openHere (list (string * string))
           (fun g name value => (name, value) :: g) CloneURL
           (fun env => inr env) (fun _ dir => dir) "/elsewhere"
           {| localRepo := Some {| RootDir := "/repo"; CloneURL := "";
                                   CommitID := "abc" |};
              localRepoErr := None; CacheLocalRepo := true |} []
           {| RootDir := "/repo"; CloneURL := ""; CommitID := "abc" |});
    reflexivity.
Defined.

Lemma setDefaultRepoURIOpt_first_witness :
  setDefaultRepoURIOpt string openHere (list (string * string))
      (fun g name value => (name, value) :: g) CloneURL "/repo" initPkg []
  = ({| localRepo := Some {| RootDir := "/repo"; CloneURL := "";
                             CommitID := "" |};
        localRepoErr := None; CacheLocalRepo := true |}, [], 1%nat).
Proof.
  apply (setDefaultRepoURIOpt_first string openHere (list (string * string))
           (fun g name value => (name, value) :: g) CloneURL "/repo" []
           {| RootDir := "/repo"; CloneURL := ""; CommitID := "" |} None).
  reflexivity.
Defined.

End DefaultExamples.
